(** * Procedural water-surface shader: a shallow embedding of
      [assets/water_fragment.glsl] and the properties of its colour model,
      with the boat logic of [main.js] that drives the scene.

    The fragment shader is a straight-line numeric program.  It is embedded
    over ideal (exact) arithmetic:

    - the part that only uses [+ - * floor] and comparisons (the simplex
      noise [snoise], the advection currents and the sampling coordinates)
      is written once, over a small numeric interface [GLNum], and read at
      three carriers: the rationals [Q] and their machine-word form [bigQ],
      where it runs, and the reals [R], where the rest of the shader lives;
    - the rest of [main] ([sin], [pow], [atan], [normalize], [smoothstep])
      is written over [R]; an operation whose GLSL result is undefined (a
      division by zero, [normalize] of the zero vector, [atan(0,0)], [pow]
      of a negative base) yields [None];
    - [fwidth] differences the value of its argument against the two
      neighbouring fragments of the 2x2 quad, so an invocation takes the
      quad's varyings. *)

From Stdlib Require Import QArith Qround Qreduction ZArith Lia Bool.
From Stdlib Require Import List String.
From Stdlib Require Import Reals Qreals Lra Psatz.
From Bignums Require Import BigZ.BigZ BigN.BigN BigQ.BigQ.

Import ListNotations.

Set Implicit Arguments.

(** ** Vectors *)

Record vec2 (A : Type) := Vec2 { vx2 : A; vy2 : A }.
Record vec3 (A : Type) := Vec3 { vx3 : A; vy3 : A; vz3 : A }.
Record vec4 (A : Type) := Vec4 { vx4 : A; vy4 : A; vz4 : A; vw4 : A }.

Arguments Vec2 {A} _ _.
Arguments Vec3 {A} _ _ _.
Arguments Vec4 {A} _ _ _ _.

Definition map2 {A B} (f : A -> B) (v : vec2 A) : vec2 B :=
  Vec2 (f (vx2 v)) (f (vy2 v)).
Definition map3 {A B} (f : A -> B) (v : vec3 A) : vec3 B :=
  Vec3 (f (vx3 v)) (f (vy3 v)) (f (vz3 v)).
Definition map4 {A B} (f : A -> B) (v : vec4 A) : vec4 B :=
  Vec4 (f (vx4 v)) (f (vy4 v)) (f (vz4 v)) (f (vw4 v)).

Definition zip2 {A B C} (f : A -> B -> C) (a : vec2 A) (b : vec2 B) : vec2 C :=
  Vec2 (f (vx2 a) (vx2 b)) (f (vy2 a) (vy2 b)).
Definition zip3 {A B C} (f : A -> B -> C) (a : vec3 A) (b : vec3 B) : vec3 C :=
  Vec3 (f (vx3 a) (vx3 b)) (f (vy3 a) (vy3 b)) (f (vz3 a) (vz3 b)).
Definition zip4 {A B C} (f : A -> B -> C) (a : vec4 A) (b : vec4 B) : vec4 C :=
  Vec4 (f (vx4 a) (vx4 b)) (f (vy4 a) (vy4 b)) (f (vz4 a) (vz4 b)) (f (vw4 a) (vw4 b)).

(** Swizzles used by the shader. *)
Definition yzx {A} (v : vec3 A) : vec3 A := Vec3 (vy3 v) (vz3 v) (vx3 v).
Definition zxy {A} (v : vec3 A) : vec3 A := Vec3 (vz3 v) (vx3 v) (vy3 v).
Definition xzyw {A} (v : vec4 A) : vec4 A := Vec4 (vx4 v) (vz4 v) (vy4 v) (vw4 v).
Definition xxyy {A} (v : vec4 A) : vec4 A := Vec4 (vx4 v) (vx4 v) (vy4 v) (vy4 v).
Definition zzww {A} (v : vec4 A) : vec4 A := Vec4 (vz4 v) (vz4 v) (vw4 v) (vw4 v).
Definition splat3 {A} (a : A) : vec3 A := Vec3 a a a.
Definition splat4 {A} (a : A) : vec4 A := Vec4 a a a a.

(** ** The numeric interface of the rational part of the shader *)

Class GLNum (A : Type) := {
  lit    : Q -> A;            (* a decimal literal or constant expression *)
  gadd   : A -> A -> A;
  gsub   : A -> A -> A;
  gmul   : A -> A -> A;
  gopp   : A -> A;
  gdiv   : A -> A -> A;       (* meant for a non-zero divisor *)
  gfloor : A -> A;
  gltb   : A -> A -> bool
}.

Declare Scope gl_scope.
Delimit Scope gl_scope with gl.
Infix "+" := gadd : gl_scope.
Infix "-" := gsub : gl_scope.
Infix "*" := gmul : gl_scope.
Infix "/" := gdiv : gl_scope.
Notation "- a" := (gopp a) : gl_scope.

(** *** Exact rationals: the executable reading *)

Definition Qltb (a b : Q) : bool :=
  (Qnum a * QDen b <? Qnum b * QDen a)%Z.

#[export] Instance GLNum_Q : GLNum Q := {
  lit q := Qred q;
  gadd a b := Qred (a + b);
  gsub a b := Qred (a - b);
  gmul a b := Qred (a * b);
  gopp a := Qred (- a);
  gdiv a b := Qred (a / b);
  gfloor a := inject_Z (Qfloor a);
  gltb := Qltb
}.

(** *** Reals: the reading the properties are stated on *)

Definition Rltb (a b : R) : bool := if Rlt_dec a b then true else false.

#[export] Instance GLNum_R : GLNum R := {
  lit := Q2R;
  gadd := Rplus;
  gsub := Rminus;
  gmul := Rmult;
  gopp := Ropp;
  gdiv := Rdiv;
  gfloor a := IZR (Zfloor a);
  gltb := Rltb
}.

(** *** Rationals over machine words: the reading that runs fast

    [bigQ] keeps numerators and denominators as trees of 63-bit words and
    reduces every result to lowest terms. *)

(** [floor]: the quotient of the numerator by the denominator. *)
Definition bigQ_floor (a : bigQ) : bigQ :=
  match a with
  | BigQ.Qz z => BigQ.Qz z
  | BigQ.Qq n d =>
      if BigN.eqb d BigN.zero then BigQ.Qz BigZ.zero
      else BigQ.Qz (BigZ.div n (BigZ.Pos d))
  end.

Definition bigQ_ltb (a b : bigQ) : bool :=
  match BigQ.compare a b with Lt => true | _ => false end.

#[export] Instance GLNum_bigQ : GLNum bigQ := {
  lit q := BigQ.of_Q q;
  gadd := BigQ.add_norm;
  gsub := BigQ.sub_norm;
  gmul := BigQ.mul_norm;
  gopp := BigQ.opp;
  gdiv := BigQ.div_norm;
  gfloor := bigQ_floor;
  gltb := bigQ_ltb
}.

(** The rational a [bigQ] stands for, in lowest terms. *)
Definition bigQ_value (a : bigQ) : Q := Qred (BigQ.to_Q a).

(** *** Maps between carriers that commute with the interface *)

Class GLHom {A B : Type} `{GLNum A} `{GLNum B} (f : A -> B) : Prop := {
  hom_lit : forall q, f (lit q) = lit q;
  hom_gadd : forall a b, f (gadd a b) = gadd (f a) (f b);
  hom_gsub : forall a b, f (gsub a b) = gsub (f a) (f b);
  hom_gmul : forall a b, f (gmul a b) = gmul (f a) (f b);
  hom_gopp : forall a, f (gopp a) = gopp (f a);
  hom_gdiv : forall a b, f (gdiv a b) = gdiv (f a) (f b);
  hom_gfloor : forall a, f (gfloor a) = gfloor (f a);
  hom_gltb : forall a b, gltb (f a) (f b) = gltb a b
}.

(** ** GLSL built-ins of the rational part *)

Section Builtins.
Context {A : Type} `{GLNum A}.
Local Open Scope gl_scope.

(** [step(edge, x)] is [0.0] if [x < edge], else [1.0]. *)
Definition step (edge x : A) : A :=
  if gltb x edge then lit 0 else lit 1.
(** [min(x, y)] is [y] if [y < x], else [x]. *)
Definition gmin (x y : A) : A := if gltb y x then y else x.
(** [max(x, y)] is [y] if [x < y], else [x]. *)
Definition gmax (x y : A) : A := if gltb x y then y else x.
Definition gabs (x : A) : A := if gltb x (lit 0) then - x else x.

Definition dot3 (a b : vec3 A) : A :=
  vx3 a * vx3 b + vy3 a * vy3 b + vz3 a * vz3 b.
Definition dot4 (a b : vec4 A) : A :=
  vx4 a * vx4 b + vy4 a * vy4 b + vz4 a * vz4 b + vw4 a * vw4 b.

Definition add2 := zip2 (@gadd A _).
Definition add3 := zip3 (@gadd A _).
Definition sub3 := zip3 (@gsub A _).
Definition add4 := zip4 (@gadd A _).
Definition sub4 := zip4 (@gsub A _).
Definition mul4 := zip4 (@gmul A _).
(** vector-with-scalar forms *)
Definition adds3 (v : vec3 A) (s : A) : vec3 A := map3 (fun c => c + s) v.
Definition adds4 (v : vec4 A) (s : A) : vec4 A := map4 (fun c => c + s) v.
Definition sadd4 (s : A) (v : vec4 A) : vec4 A := map4 (fun c => s + c) v.
Definition ssub3 (s : A) (v : vec3 A) : vec3 A := map3 (fun c => s - c) v.
Definition ssub4 (s : A) (v : vec4 A) : vec4 A := map4 (fun c => s - c) v.
Definition scale2 (v : vec2 A) (s : A) : vec2 A := map2 (fun c => c * s) v.
Definition scale3 (v : vec3 A) (s : A) : vec3 A := map3 (fun c => c * s) v.
Definition scale4 (v : vec4 A) (s : A) : vec4 A := map4 (fun c => c * s) v.
Definition sscale4 (s : A) (v : vec4 A) : vec4 A := map4 (fun c => s * c) v.

(** *** Simplex noise 3D (lines 24-47 of the shader) *)

(** [x - floor(x * (1.0 / 289.0)) * 289.0] *)
Definition mod289 (x : A) : A :=
  x - gfloor (x * lit (1 # 289)) * lit 289.
(** [mod289(((x*34.0)+1.0)*x)] *)
Definition permute (x : A) : A :=
  mod289 (((x * lit 34) + lit 1) * x).
(** [1.79284291400159 - 0.85373472095314 * r] *)
Definition taylorInvSqrt (r : A) : A :=
  lit (179284291400159 # 100000000000000)
  - lit (85373472095314 # 100000000000000) * r.

Definition snoise (v : vec3 A) : A :=
  let Cx := lit (1 # 6) in
  let Cy := lit (1 # 3) in
  let Dx := lit 0 in
  let Dy := lit (1 # 2) in
  let Dz := lit 1 in
  let Dw := lit 2 in
  let i := map3 gfloor (adds3 v (dot3 v (splat3 Cy))) in
  let x0 := adds3 (sub3 v i) (dot3 i (splat3 Cx)) in
  let g := zip3 step (yzx x0) x0 in
  let l := ssub3 (lit 1) g in
  let i1 := zip3 gmin g (zxy l) in
  let i2 := zip3 gmax g (zxy l) in
  let x1 := add3 (sub3 x0 i1) (splat3 Cx) in
  let x2 := add3 (sub3 x0 i2) (splat3 Cy) in
  let x3 := sub3 x0 (splat3 Dy) in
  let i := map3 mod289 i in
  let p :=
    map4 permute
      (add4 (adds4
        (map4 permute
          (add4 (adds4
            (map4 permute
              (sadd4 (vz3 i) (Vec4 (lit 0) (vz3 i1) (vz3 i2) (lit 1))))
            (vy3 i))
            (Vec4 (lit 0) (vy3 i1) (vy3 i2) (lit 1))))
        (vx3 i))
        (Vec4 (lit 0) (vx3 i1) (vx3 i2) (lit 1))) in
  let n_ := lit (142857142857 # 1000000000000) in
  let ns := Vec3 (n_ * Dw - Dx) (n_ * Dy - Dz) (n_ * Dz - Dx) in
  let j := sub4 p (sscale4 (lit 49)
                    (map4 gfloor (scale4 (scale4 p (vz3 ns)) (vz3 ns)))) in
  let x_ := map4 gfloor (scale4 j (vz3 ns)) in
  let y_ := map4 gfloor (sub4 j (sscale4 (lit 7) x_)) in
  let x := adds4 (scale4 x_ (vx3 ns)) (vy3 ns) in
  let y := adds4 (scale4 y_ (vx3 ns)) (vy3 ns) in
  let h := sub4 (ssub4 (lit 1) (map4 gabs x)) (map4 gabs y) in
  let b0 := Vec4 (vx4 x) (vy4 x) (vx4 y) (vy4 y) in
  let b1 := Vec4 (vz4 x) (vw4 x) (vz4 y) (vw4 y) in
  let s0 := adds4 (scale4 (map4 gfloor b0) (lit 2)) (lit 1) in
  let s1 := adds4 (scale4 (map4 gfloor b1) (lit 2)) (lit 1) in
  let sh := map4 gopp (zip4 step h (splat4 (lit 0))) in
  let a0 := add4 (xzyw b0) (mul4 (xzyw s0) (xxyy sh)) in
  let a1 := add4 (xzyw b1) (mul4 (xzyw s1) (zzww sh)) in
  let p0 := Vec3 (vx4 a0) (vy4 a0) (vx4 h) in
  let p1 := Vec3 (vz4 a0) (vw4 a0) (vy4 h) in
  let p2 := Vec3 (vx4 a1) (vy4 a1) (vz4 h) in
  let p3 := Vec3 (vz4 a1) (vw4 a1) (vw4 h) in
  let norm := map4 taylorInvSqrt
                (Vec4 (dot3 p0 p0) (dot3 p1 p1) (dot3 p2 p2) (dot3 p3 p3)) in
  let p0 := scale3 p0 (vx4 norm) in
  let p1 := scale3 p1 (vy4 norm) in
  let p2 := scale3 p2 (vz4 norm) in
  let p3 := scale3 p3 (vw4 norm) in
  let m := map4 (fun c => gmax c (lit 0))
             (ssub4 (lit (51 # 100))
                (Vec4 (dot3 x0 x0) (dot3 x1 x1) (dot3 x2 x2) (dot3 x3 x3))) in
  let m := mul4 m m in
  lit 105 * dot4 (mul4 m m)
              (Vec4 (dot3 p0 x0) (dot3 p1 x1) (dot3 p2 x2) (dot3 p3 x3)).

End Builtins.


(** ** Undefined results *)

Definition bind {X Y} (m : option X) (k : X -> option Y) : option Y :=
  match m with Some a => k a | None => None end.

Notation "x <- m ;; k" := (bind m (fun x => k))
  (at level 61, m at next level, right associativity).

(** ** Built-ins with a division, and the shaping helpers (lines 92-107) *)

Section Shaping.
Context {A : Type} `{GLNum A}.
Local Open Scope gl_scope.

Definition is_zero (a : A) : bool :=
  negb (gltb a (lit 0)) && negb (gltb (lit 0) a).

(** [clamp(x, lo, hi)] is [min(max(x, lo), hi)]. *)
Definition clamp (x lo hi : A) : A := gmin (gmax x lo) hi.
(** [mix(x, y, a)] is [x*(1-a) + y*a]. *)
Definition mix (x y a : A) : A := x * (lit 1 - a) + y * a.
Definition mix3 (x y : vec3 A) (a : A) : vec3 A :=
  zip3 (fun c d => mix c d a) x y.

(** [smoothstep(edge0, edge1, x)]: with
    [t = clamp((x - edge0) / (edge1 - edge0), 0, 1)] it is
    [t * t * (3 - 2 * t)]; the quotient has no value when the edges
    coincide.  The formula is also the one used with [edge0 > edge1], as
    the shader does for its fades from the boundary. *)
Definition smoothstep (edge0 edge1 x : A) : option A :=
  if is_zero (edge1 - edge0) then None
  else
    let t := clamp ((x - edge0) / (edge1 - edge0)) (lit 0) (lit 1) in
    Some (t * t * (lit 3 - lit 2 * t)).

(** [fwidth(p)] is [abs(dFdx(p)) + abs(dFdy(p))]; the two derivatives are
    the differences of [p] against the horizontal and the vertical
    neighbour of the fragment in its quad. *)
Definition fwidth_of (p p_dx p_dy : A) : A :=
  gabs (p_dx - p) + gabs (p_dy - p).

(** [calculate_line_intensity]; [fwidth_noise] is the value of
    [fwidth(noiseValue01)]. *)
Definition calculate_line_intensity
    (fwidth_noise noiseValue01 threshold sharpness : A) : option A :=
  let fw := fwidth_noise * sharpness in
  s <- smoothstep (threshold - fw) (threshold + fw) noiseValue01 ;;
  let intensity := lit 1 - s in
  Some (clamp intensity (lit 0) (lit 1)).

(** [calculate_band_intensity] *)
Definition calculate_band_intensity
    (fwidth_noise noiseValue01 bandStart bandEnd sharpness : A) : option A :=
  let fw := fwidth_noise * sharpness in
  rampUp <- smoothstep (bandStart - fw) (bandStart + fw) noiseValue01 ;;
  rampDown <- smoothstep (bandEnd - fw) (bandEnd + fw) noiseValue01 ;;
  Some (clamp (rampUp - rampDown) (lit 0) (lit 1)).

End Shaping.

(** ** Inputs of one invocation *)

Record Uniforms (A : Type) := {
  resolution   : vec2 A;   (* viewport resolution (width, height) *)
  time         : A;        (* time elapsed *)
  patternScale : A;        (* overall scale factor for noise patterns *)
  timeScale    : A         (* overall speed factor for animation *)
}.

Record Varyings (A : Type) := {
  vUv  : vec2 A;           (* UV0, used for the edge effects only *)
  vUv2 : vec2 A            (* UV1, used for the main patterns *)
}.

(** The fragment being shaded and the two neighbours of its quad that the
    derivative operators read. *)
Record Quad (A : Type) := {
  here    : Varyings A;
  beside  : Varyings A;    (* horizontal neighbour *)
  above   : Varyings A     (* vertical neighbour *)
}.

(** The inputs read at another carrier. *)
Definition map_uniforms {A B} (f : A -> B) (u : Uniforms A) : Uniforms B :=
  {| resolution := map2 f (resolution u);
     time := f (time u);
     patternScale := f (patternScale u);
     timeScale := f (timeScale u) |}.

Definition map_varyings {A B} (f : A -> B) (v : Varyings A) : Varyings B :=
  {| vUv := map2 f (vUv v); vUv2 := map2 f (vUv2 v) |}.

Definition map_quad {A B} (f : A -> B) (q : Quad A) : Quad B :=
  {| here := map_varyings f (here q);
     beside := map_varyings f (beside q);
     above := map_varyings f (above q) |}.

(** ** The pattern layers of [main] that stay rational (lines 130-265) *)

Section Pattern.
Context {A : Type} `{GLNum A}.
Local Open Scope gl_scope.

(** *** Parameters (lines 136-211) *)
Definition colorBackground : vec3 A :=
  Vec3 (lit (15 # 100)) (lit (45 # 100)) (lit (80 # 100)).
Definition colorDarkLine : vec3 A :=
  Vec3 (lit (12 # 100)) (lit (42 # 100)) (lit (75 # 100)).
Definition colorFoamLine : vec3 A :=
  Vec3 (lit (95 # 100)) (lit (98 # 100)) (lit 1).
Definition colorStaticGlow : vec3 A := Vec3 (lit 1) (lit 1) (lit 1).

Definition masterTimeFactor : A := lit (35 # 100).

Definition mainCurrentFrequency : A := lit (28 # 10).
Definition mainCurrentSpeed : A := lit (15 # 100).
Definition mainCurrentStrength : A := lit (25 # 1000).

Definition foamCurrentFrequency : A := lit (22 # 10).
Definition foamCurrentSpeed : A := lit (12 # 100).
Definition foamCurrentStrength : A := lit (2 # 1000).

Definition darkWaveFrequency : A := lit 8.
Definition waveSpeedDark : A := lit (28 # 100).
Definition darkLineThreshold : A := lit (5 # 10).
Definition darkLineSharpness : A := lit (15 # 10).

Definition foamBandFrequency : A := lit 12.
Definition waveSpeedFoam : A := lit (22 # 100).
Definition foamBandStart : A := lit (58 # 100).
Definition foamBandEnd : A := lit (59 # 100).
Definition foamBandSharpness : A := lit 5.

Definition breakupNoiseFreq : A := lit (15 # 10).
Definition breakupNoiseSpeed : A := lit (15 # 100).
Definition breakupStrength : A := lit 1.
Definition breakupThreshold : A := lit (65 # 100).
Definition breakupSmoothness : A := lit (5 # 100).

Definition darkLineOpacity : A := lit (90 # 100).

Definition staticGlowAlpha : A := lit (5 # 10).
Definition staticGlowDistance : A := lit (25 # 100).
Definition staticGlowDarkBoost : A := lit (18 # 10).

Definition lapWaveDistortionFreq : A := lit 15.
Definition lapWaveDistortionStrength : A := lit (10 # 100).
Definition edgeWaveFadeDistance : A := lit (8 # 100).

Definition radialWaveDistortionFreq : A := lit 25.
Definition radialWaveDistortionStrength : A := lit (8 # 100).
Definition radialWaveMaskFreq : A := lit (18 # 10).
Definition radialWaveMaskSpeed : A := lit (1 # 10).
Definition radialWaveMaskThreshold : A := lit (55 # 100).
Definition radialWaveMaskSmoothness : A := lit (5 # 100).

Variable u : Uniforms A.

(** [vec3(v, t)] *)
Definition vec3_of (v : vec2 A) (t : A) : vec3 A := Vec3 (vx2 v) (vy2 v) t.

(** *** Advection currents (lines 71-89) *)
Definition calculate_main_current
    (st : vec2 A) (time_in freq strength : A) : vec2 A :=
  let currentNoiseCoord :=
    vec3_of (scale2 (scale2 st (patternScale u)) freq) time_in in
  let currentX :=
    snoise (add3 currentNoiseCoord (Vec3 (lit 1) (lit 2) (lit 3))) in
  let currentY :=
    snoise (add3 currentNoiseCoord
              (Vec3 (lit (52 # 10)) (lit (13 # 10)) (lit (-94 # 10)))) in
  scale2 (Vec2 currentX currentY) strength.

Definition calculate_foam_current
    (st : vec2 A) (time_in freq strength : A) : vec2 A :=
  let currentNoiseCoord :=
    vec3_of (add2 (scale2 (scale2 st (patternScale u)) freq)
                  (Vec2 (lit 10) (lit (-5))))
            time_in in
  let currentX :=
    snoise (add3 currentNoiseCoord
              (Vec3 (lit (-71 # 10)) (lit (85 # 10)) (lit (123 # 10)))) in
  let currentY :=
    snoise (add3 currentNoiseCoord
              (Vec3 (lit (39 # 10)) (lit (-116 # 10)) (lit (-17 # 10)))) in
  scale2 (Vec2 currentX currentY) strength.

(** *** Coordinates and time (lines 132-145) *)

(** [vUv2 * vec2(resolution.x / resolution.y, 1.0)] *)
Definition aspect_st (uv2 : vec2 A) : option (vec2 A) :=
  if is_zero (vy2 (resolution u)) then None
  else Some (zip2 gmul uv2
               (Vec2 (vx2 (resolution u) / vy2 (resolution u)) (lit 1))).

Definition masterTime : A := time u * masterTimeFactor * timeScale u.

(** *** 1. Distance to edge (lines 217-219) *)
Definition distToEdge (st_orig : vec2 A) : A :=
  let d := gmin (gmin (vx2 st_orig) (lit 1 - vx2 st_orig))
                (gmin (vy2 st_orig) (lit 1 - vy2 st_orig)) in
  gmax d (lit (1 # 10000)).

(** *** 2. Edge distortion vector (lines 221-227) *)
Definition edgeDistortion (st_orig : vec2 A) : vec2 A :=
  let lapDistortNoiseCoord :=
    vec3_of (scale2 (scale2 st_orig (patternScale u)) lapWaveDistortionFreq)
            (masterTime * lit (2 # 10)) in
  scale2 (Vec2 (snoise lapDistortNoiseCoord)
               (snoise (add3 lapDistortNoiseCoord
                  (Vec3 (lit (178 # 10)) (lit (-53 # 10)) (lit (291 # 10))))))
         lapWaveDistortionStrength.

(** *** 3.-4. Currents and final sampling coordinates (lines 229-235) *)
Definition mainCurrentVector (st : vec2 A) : vec2 A :=
  calculate_main_current st (masterTime * mainCurrentSpeed)
    mainCurrentFrequency mainCurrentStrength.
Definition foamCurrentVector (st : vec2 A) : vec2 A :=
  calculate_foam_current st (masterTime * foamCurrentSpeed)
    foamCurrentFrequency foamCurrentStrength.
Definition dark_final_st (st : vec2 A) : vec2 A := add2 st (mainCurrentVector st).
Definition foam_final_st (st : vec2 A) : vec2 A := add2 st (foamCurrentVector st).

(** *** 5. Breakup mask (lines 237-246) *)
Definition breakupMaskNoise (st : vec2 A) : A :=
  let breakNoiseCoord :=
    vec3_of (scale2 (scale2 st (patternScale u)) breakupNoiseFreq)
            (masterTime * breakupNoiseSpeed) in
  snoise breakNoiseCoord * lit (1 # 2) + lit (1 # 2).

Definition breakupMask (st : vec2 A) : option A :=
  smoothstep (breakupThreshold - breakupSmoothness * lit (1 # 2))
             (breakupThreshold + breakupSmoothness * lit (1 # 2))
             (breakupMaskNoise st).

(** [1.0 - breakupMask * breakupStrength], with the strength as an
    argument; the shader fixes it to [breakupStrength = 1.0]. *)
Definition lineVisibilityMask (strength : A) (st : vec2 A) : option A :=
  m <- breakupMask st ;;
  Some (lit 1 - m * strength).

(** *** Dark lines (lines 249-256) *)
Definition darkNoiseValue01 (st : vec2 A) : A :=
  let darkNoiseCoord :=
    vec3_of (scale2 (scale2 (dark_final_st st) (patternScale u))
                    darkWaveFrequency)
            (masterTime * waveSpeedDark) in
  let darkNoiseValue := snoise darkNoiseCoord in
  darkNoiseValue * lit (1 # 2) + lit (1 # 2).

(** *** Foam band (lines 259-265) *)
Definition foamSimplexValue01 (st : vec2 A) : A :=
  let foamSimplexCoord :=
    vec3_of (scale2 (scale2 (foam_final_st st) (patternScale u))
                    foamBandFrequency)
            (masterTime * waveSpeedFoam) in
  let foamSimplexValue := snoise foamSimplexCoord in
  foamSimplexValue * lit (1 # 2) + lit (1 # 2).

(** [fwidth] of a value that depends on the fragment through [st]. *)
Definition fwidth (p : vec2 A -> A) (q : Quad A) : option A :=
  st <- aspect_st (vUv2 (here q)) ;;
  st_dx <- aspect_st (vUv2 (beside q)) ;;
  st_dy <- aspect_st (vUv2 (above q)) ;;
  Some (fwidth_of (p st) (p st_dx) (p st_dy)).

Definition darkLineIntensity (strength : A) (q : Quad A) : option A :=
  st <- aspect_st (vUv2 (here q)) ;;
  lineVisibilityMask <- lineVisibilityMask strength st ;;
  fw <- fwidth darkNoiseValue01 q ;;
  i <- calculate_line_intensity fw (darkNoiseValue01 st)
         darkLineThreshold darkLineSharpness ;;
  let i := i * darkLineOpacity in
  Some (i * lineVisibilityMask).

Definition foamIntensity_base (q : Quad A) : option A :=
  st <- aspect_st (vUv2 (here q)) ;;
  fw <- fwidth foamSimplexValue01 q ;;
  calculate_band_intensity fw (foamSimplexValue01 st)
    foamBandStart foamBandEnd foamBandSharpness.

Definition foamIntensity_masked (strength : A) (q : Quad A) : option A :=
  st <- aspect_st (vUv2 (here q)) ;;
  lineVisibilityMask <- lineVisibilityMask strength st ;;
  base <- foamIntensity_base q ;;
  Some (base * lineVisibilityMask).

(** *** Noise of the radial wave effect (lines 311-324) *)
Definition angleDistortion (st : vec2 A) : A :=
  let radialDistortCoord :=
    vec3_of (scale2 (scale2 st (patternScale u)) radialWaveDistortionFreq)
            (masterTime * lit (8 # 10)) in
  snoise radialDistortCoord * radialWaveDistortionStrength.

Definition radialMask (st : vec2 A) : option A :=
  let radialMaskCoord :=
    vec3_of (scale2 (scale2 st (patternScale u)) radialWaveMaskFreq)
            (masterTime * radialWaveMaskSpeed) in
  let radialMaskNoise := snoise radialMaskCoord * lit (1 # 2) + lit (1 # 2) in
  smoothstep radialWaveMaskThreshold
             (radialWaveMaskThreshold + radialWaveMaskSmoothness)
             radialMaskNoise.

End Pattern.

(** ** Built-ins of the real part *)

Local Open Scope R_scope.

(** [#define PI 3.14159265359]: the shader's own decimal, not the number pi. *)
Definition PI_define : R := 3.14159265359.

Definition dot2 (a b : vec2 R) : R := vx2 a * vx2 b + vy2 a * vy2 b.

(** [length(v)] *)
Definition length2 (v : vec2 R) : R := sqrt (dot2 v v).

(** [normalize(v)] is [v / length(v)]; it has no value at the zero vector. *)
Definition normalize2 (v : vec2 R) : option (vec2 R) :=
  let len := length2 v in
  if Req_dec_T len 0 then None
  else Some (Vec2 (vx2 v / len) (vy2 v / len)).

(** [pow(x, y)]: undefined if [x < 0], and if [x = 0] and [y <= 0]. *)
Definition glsl_pow (x y : R) : option R :=
  if Rlt_dec x 0 then None
  else if Rlt_dec 0 x then Some (Rpower x y)
  else if Rlt_dec 0 y then Some 0
  else None.

(** [atan(y, x)]: the angle of the point [(x, y)], in [-pi, pi]; undefined
    if [x] and [y] are both [0]. *)
Definition glsl_atan (y x : R) : option R :=
  if Rlt_dec 0 x then Some (atan (y / x))
  else if Rlt_dec x 0 then
    (if Rle_dec 0 y then Some (atan (y / x) + PI) else Some (atan (y / x) - PI))
  else if Rlt_dec 0 y then Some (PI / 2)
  else if Rlt_dec y 0 then Some (- PI / 2)
  else None.

(** ** The edge and radial layers of [main] (lines 272-329) *)

Definition staticGlowSharpness : R := 0.8.

Definition lapWaveSpeed : R := 0.8.
Definition lapWavePeakSharpness : R := 8.0.
Definition lapWaveRadialFreq : R := 30.0.
Definition lapWaveIntensityMultiplier : R := 1.0.

Definition radialWaveSpokeCount : R := 60.0.
Definition radialWaveFreq : R := 8.0.
Definition radialWaveSpeed : R := 0.3.
Definition radialWaveRotationSpeed : R := 0.05.
Definition radialWaveSharpness : R := 35.0.
Definition radialWaveIntensity : R := 0.6.

(** *** Static edge glow (lines 272-274), as a function of [distToEdge] *)
Definition staticGlowFactor (distToEdge : R) : option R :=
  staticGlowFactor <- smoothstep staticGlowDistance 0 distToEdge ;;
  p <- glsl_pow staticGlowFactor staticGlowSharpness ;;
  Some (staticGlowFactor * p).

(** *** Dynamic edge lapping waves (lines 277-298) *)
Definition lapLineIntensity_final (u : Uniforms R) (st_orig : vec2 R)
  : option R :=
  let distToEdge := distToEdge st_orig in
  let edgeDistortion := edgeDistortion u st_orig in
  n <- normalize2 (map2 (fun c => c - 0.5) st_orig) ;;
  let distortedDistToEdge := distToEdge - dot2 edgeDistortion n * 0.5 in
  let distortedDistToEdge := gmax distortedDistToEdge 0.0001 in
  let radialPhase :=
    distortedDistToEdge * lapWaveRadialFreq - masterTime u * lapWaveSpeed in
  let waveValue := sin (radialPhase * PI_define * 2.0) * 0.5 + 0.5 in
  sharpWave <- glsl_pow waveValue lapWavePeakSharpness ;;
  let lapLineIntensity_base := sharpWave * lapWaveIntensityMultiplier in
  fade <- smoothstep edgeWaveFadeDistance 0 distortedDistToEdge ;;
  let lapLineIntensity_base := lapLineIntensity_base * fade in
  Some (clamp lapLineIntensity_base 0 1).

(** *** Radial wave effect (lines 301-329) *)
Definition radialWaveIntensity_final (u : Uniforms R) (st : vec2 R)
  : option R :=
  let center := Vec2 0.7 0.5 in
  let dir := zip2 Rminus st center in
  let distFromCenter := length2 dir in
  angle <- glsl_atan (vy2 dir) (vx2 dir) ;;
  let angle := angle + masterTime u * radialWaveRotationSpeed in
  let angle := angle + angleDistortion u st in
  let radialWavePattern :=
    sin (angle * radialWaveSpokeCount + distFromCenter * radialWaveFreq
         - masterTime u * radialWaveSpeed) * 0.5 + 0.5 in
  radialWaveLines <- glsl_pow radialWavePattern radialWaveSharpness ;;
  radialMask <- radialMask u st ;;
  let radialWaveIntensity_final :=
    radialWaveLines * radialWaveIntensity * radialMask in
  Some (clamp radialWaveIntensity_final 0 1).

(** ** Final compositing (lines 332-349) *)

(** The five layer values the compositor reads. *)
Record Layers := {
  L_darkLineIntensity : R;
  L_foamIntensity_masked : R;
  L_staticGlowFactor : R;
  L_lapLineIntensity_final : R;
  L_radialWaveIntensity_final : R
}.

Definition baseColor (L : Layers) : vec3 R :=
  mix3 colorBackground colorDarkLine (clamp (L_darkLineIntensity L) 0 1).

Definition glowBoost (L : Layers) : R :=
  mix 1 staticGlowDarkBoost (clamp (L_darkLineIntensity L) 0 1).

Definition colorWithGlow (L : Layers) : vec3 R :=
  zip3 Rplus (baseColor L)
    (map3 (fun c => c * L_staticGlowFactor L * staticGlowAlpha * glowBoost L)
          colorStaticGlow).

Definition totalFoamIntensity (L : Layers) : R :=
  clamp (L_foamIntensity_masked L + L_lapLineIntensity_final L
         + L_radialWaveIntensity_final L) 0 1.

Definition finalColor (L : Layers) : vec3 R :=
  let finalColor := mix3 (colorWithGlow L) colorFoamLine (totalFoamIntensity L) in
  map3 (fun c => clamp c 0 1) finalColor.

(** [gl_FragColor = vec4(finalColor, 1.0)] *)
Definition gl_FragColor (L : Layers) : vec4 R :=
  let c := finalColor L in Vec4 (vx3 c) (vy3 c) (vz3 c) 1.0.

(** ** [main] *)

(** The layers in the order [main] computes them, for a breakup strength. *)
Definition layers (strength : R) (u : Uniforms R) (q : Quad R)
  : option Layers :=
  let st_orig := vUv (here q) in
  st <- aspect_st u (vUv2 (here q)) ;;
  dark <- darkLineIntensity u strength q ;;
  foam <- foamIntensity_masked u strength q ;;
  glow <- staticGlowFactor (distToEdge st_orig) ;;
  lap <- lapLineIntensity_final u st_orig ;;
  radial <- radialWaveIntensity_final u st ;;
  Some {| L_darkLineIntensity := dark;
          L_foamIntensity_masked := foam;
          L_staticGlowFactor := glow;
          L_lapLineIntensity_final := lap;
          L_radialWaveIntensity_final := radial |}.

Definition main_with (strength : R) (u : Uniforms R) (q : Quad R)
  : option (vec4 R) :=
  L <- layers strength u q ;;
  Some (gl_FragColor L).

Definition main (u : Uniforms R) (q : Quad R) : option (vec4 R) :=
  main_with breakupStrength u q.

(** ** Functions of the shader that [main] does not call *)

(** [fract(x)] is [x - floor(x)]. *)
Definition fract (x : R) : R := x - IZR (Zfloor x).

(** *** Worley noise 3D (lines 52-63) *)

Definition hash3 (p : vec3 R) : vec3 R :=
  let p := Vec3 (dot3 p (Vec3 127.1 311.7 74.7))
                (dot3 p (Vec3 269.5 183.3 246.1))
                (dot3 p (Vec3 113.5 271.9 124.6)) in
  map3 (fun c => -1.0 + 2.0 * fract (sin c * 43758.5453123)) p.

(** The first lines of the loop body of [worley]: the squared distance
    from [p] to the feature point of the cell at offset [dp] from the
    cell [ip] of [p]. *)
Definition feature_dist_sq (p ip dp : vec3 R) : R :=
  let cp := add3 ip dp in
  let op := hash3 cp in
  let fp_pos := add3 (adds3 dp 0.5) (map3 (fun c => 0.5 * c) op) in
  let diff := sub3 fp_pos (map3 fract p) in
  dot3 diff diff.

(** Its last line: [d] keeps the two smallest squared distances. *)
Definition keep_two_smallest (d : vec2 R) (dist_sq : R) : vec2 R :=
  if Rlt_dec dist_sq (vx2 d) then Vec2 dist_sq (vx2 d)
  else if Rlt_dec dist_sq (vy2 d) then Vec2 (vx2 d) dist_sq
  else d.

(** The values of a loop counter, and the offsets [dp] in the order of the
    three nested loops: [k] outermost, [i] innermost. *)
Definition loop_values : list R := [-1; 0; 1].
Definition worley_offsets : list (vec3 R) :=
  flat_map (fun k =>
    flat_map (fun j => List.map (fun i => Vec3 i j k) loop_values)
             loop_values)
    loop_values.

Definition worley (p : vec3 R) : vec2 R :=
  let ip := map3 gfloor p in
  let d := fold_left
             (fun d dp => keep_two_smallest d (feature_dist_sq p ip dp))
             worley_offsets (Vec2 10000000000 10000000000) in
  map2 sqrt d.

(** *** [rotate2d] (lines 67-69) *)

(** A [mat2], by columns, as GLSL's constructor takes its arguments. *)
Record mat2 := Mat2 { col0 : vec2 R; col1 : vec2 R }.

(** [m * v] *)
Definition mat2_mul (m : mat2) (v : vec2 R) : vec2 R :=
  Vec2 (vx2 (col0 m) * vx2 v + vx2 (col1 m) * vy2 v)
       (vy2 (col0 m) * vx2 v + vy2 (col1 m) * vy2 v).

Definition rotate2d (angle : R) : mat2 :=
  Mat2 (Vec2 (cos angle) (- sin angle)) (Vec2 (sin angle) (cos angle)).

(** *** Flow streaks (lines 112-126) *)

Definition calculate_streaks (u : Uniforms R) (sampling_st currentVec : vec2 R)
    (time_in freq sharpThresh strength : R) : option R :=
  if Rle_dec strength 0 then Some 0
  else
    let currentSpeed := length2 currentVec in
    intensity <-
      (if Rlt_dec 0.005 currentSpeed then
         currentAngle <- glsl_atan (vy2 currentVec) (vx2 currentVec) ;;
         let streak_st := mat2_mul (rotate2d (- currentAngle)) sampling_st in
         let streakNoiseCoord :=
           vec3_of (scale2 (scale2 streak_st (patternScale u)) freq) time_in in
         let streakNoise := snoise streakNoiseCoord * 0.5 + 0.5 in
         intensity <- smoothstep (sharpThresh - 0.04) (sharpThresh + 0.04)
                        streakNoise ;;
         Some (intensity * strength)
       else Some 0) ;;
    Some (clamp intensity 0 1).

(** * The boat of [main.js]

    The numbers of the script are read as reals, like those of the
    shader. *)

(** ** Configuration (lines 12-45) *)
Definition terrainScale : R := 10.
Definition maxSpeed : R := 15.0 * terrainScale / 10.
Definition accelerationRate : R := 10.0 * terrainScale / 10.
Definition decelerationRate : R := 8.0 * terrainScale / 10.
Definition collisionDamping : R := 0.2.
Definition targetFrameRate : R := 30.
Definition targetFrameDuration : R := 1 / targetFrameRate.

(** ** The fixed-timestep loop of [render] (lines 516-522) *)

(** [Math.min(clock.getDelta(), 0.05)] *)
Definition deltaTime (clock_delta : R) : R := Rmin clock_delta 0.05.

(** [while (timeAccumulator >= targetFrameDuration)]: the accumulator that
    is left and the number of updates that were run; [None] when [fuel]
    iterations do not end the loop. *)
Fixpoint fixed_steps (fuel : nat) (timeAccumulator : R) (updates : nat)
  : option (R * nat) :=
  if Rle_dec targetFrameDuration timeAccumulator then
    match fuel with
    | O => None
    | S fuel' =>
        fixed_steps fuel' (timeAccumulator - targetFrameDuration) (S updates)
    end
  else Some (timeAccumulator, updates).

(** ** The speed of the boat in one update (lines 535-551) *)

(** Lines 535-537. *)
Definition update_speed (isAccelerating : bool) (currentSpeed : R) : R :=
  let effectiveDeltaTime := targetFrameDuration in
  let currentSpeed :=
    if isAccelerating then currentSpeed + accelerationRate * effectiveDeltaTime
    else if Rlt_dec 0 currentSpeed
         then currentSpeed - decelerationRate * effectiveDeltaTime
         else currentSpeed in
  Rmax 0 (Rmin currentSpeed maxSpeed).

(** Lines 539-551; [blocked] stands for the outcome of the ray casts: some
    ray meets the boundary within the proposed displacement, at a face
    that has a normal. *)
Definition collide (blocked : bool) (currentSpeed : R) : R :=
  if Rlt_dec 0.01 currentSpeed then
    if blocked then currentSpeed * collisionDamping else currentSpeed
  else currentSpeed.

Definition boat_step (currentSpeed : R) (input : bool * bool) : R :=
  collide (snd input) (update_speed (fst input) currentSpeed).

(** The speed after a run of updates, each with its key state and its
    ray-cast outcome. *)
Definition boat_run (inputs : list (bool * bool)) (currentSpeed : R) : R :=
  fold_left boat_step inputs currentSpeed.

(** ** The keyboard listeners (lines 606-607) *)

Record Controls := {
  isAccelerating : bool;
  isTurningLeft : bool;
  isTurningRight : bool
}.

(** Lines 62-64. *)
Definition released : Controls :=
  {| isAccelerating := false; isTurningLeft := false; isTurningRight := false |}.

(** One key event: whether it is a keydown, whether its target is an
    [INPUT] element, and [event.key.toLowerCase()]. *)
Record KeyEvent := {
  is_down : bool;
  on_input : bool;
  key : string
}.

Definition key_is (k : string) (a b : string) : bool :=
  String.eqb k a || String.eqb k b.

Definition keydown (k : string) (c : Controls) : Controls :=
  if key_is k "w" "arrowup" then
    {| isAccelerating := true; isTurningLeft := isTurningLeft c;
       isTurningRight := isTurningRight c |}
  else if key_is k "a" "arrowleft" then
    {| isAccelerating := isAccelerating c; isTurningLeft := true;
       isTurningRight := false |}
  else if key_is k "d" "arrowright" then
    {| isAccelerating := isAccelerating c; isTurningLeft := false;
       isTurningRight := true |}
  else c.

Definition keyup (k : string) (c : Controls) : Controls :=
  if key_is k "w" "arrowup" then
    {| isAccelerating := false; isTurningLeft := isTurningLeft c;
       isTurningRight := isTurningRight c |}
  else if key_is k "a" "arrowleft" then
    {| isAccelerating := isAccelerating c; isTurningLeft := false;
       isTurningRight := isTurningRight c |}
  else if key_is k "d" "arrowright" then
    {| isAccelerating := isAccelerating c; isTurningLeft := isTurningLeft c;
       isTurningRight := false |}
  else c.

Definition on_key (c : Controls) (e : KeyEvent) : Controls :=
  if on_input e then c
  else if is_down e then keydown (key e) c else keyup (key e) c.

(** The turning rate of an update (lines 533-534), in units of
    [turnRate * effectiveDeltaTime]: both branches may run. *)
Definition turn_sign (c : Controls) : Z :=
  ((if isTurningLeft c then 1 else 0) + (if isTurningRight c then -1 else 0))%Z.

Unset Implicit Arguments.

(** ** Auxiliary definitions of the statements *)

(** [permute] on the lattice indices. *)
Definition permute_index (n : Z) : Z := ((n * 34 + 1) * n) mod 289.

(** The cubic of [smoothstep]. *)
Definition hermite (t : R) : R := t * t * (3 - 2 * t).

(** The uniforms with another clock value. *)
Definition with_time (u : Uniforms R) (t : R) : Uniforms R :=
  {| resolution := resolution u; time := t;
     patternScale := patternScale u; timeScale := timeScale u |}.

(** Uniforms with the animation frozen. *)
Definition frozen_uniforms : Uniforms R :=
  {| resolution := Vec2 800 600; time := 0; patternScale := 1; timeScale := 0 |}.


(** The inputs at which every operation of [main] has a value. *)
Definition well_defined (u : Uniforms R) (q : Quad R) : Prop :=
  exists st fd ff,
    aspect_st u (vUv2 (here q)) = Some st /\
    fwidth u (darkNoiseValue01 u) q = Some fd /\ fd <> 0 /\
    fwidth u (foamSimplexValue01 u) q = Some ff /\ ff <> 0 /\
    vUv (here q) <> Vec2 0.5 0.5 /\
    st <> Vec2 0.7 0.5.

(** The rational inputs, read over the reals. *)
Definition embed_uniforms (u : Uniforms Q) : Uniforms R :=
  {| resolution := map2 Q2R (resolution u);
     time := Q2R (time u);
     patternScale := Q2R (patternScale u);
     timeScale := Q2R (timeScale u) |}.

Definition embed_varyings (v : Varyings Q) : Varyings R :=
  {| vUv := map2 Q2R (vUv v); vUv2 := map2 Q2R (vUv2 v) |}.

Definition embed_quad (q : Quad Q) : Quad R :=
  {| here := embed_varyings (here q);
     beside := embed_varyings (beside q);
     above := embed_varyings (above q) |}.

(** ** The sample inputs of the examples *)

Local Open Scope Q_scope.

Definition sample_uniforms : Uniforms Q :=
  {| resolution := Vec2 800 600; time := 1; patternScale := 1; timeScale := 1 |}.

Definition sample_quad (delta : Q) : Quad Q :=
  {| here := {| vUv := Vec2 (3 # 10) (1 # 2); vUv2 := Vec2 (6 # 100) (37 # 100) |};
     beside := {| vUv := Vec2 (Qred ((3 # 10) + delta)) (1 # 2);
                  vUv2 := Vec2 (Qred ((6 # 100) + delta)) (37 # 100) |};
     above := {| vUv := Vec2 (3 # 10) (Qred ((1 # 2) + delta));
                 vUv2 := Vec2 (6 # 100) (Qred ((37 # 100) + delta)) |} |}.

Definition fine_quad : Quad Q := sample_quad (1 # 1000).
Definition coarse_quad : Quad Q := sample_quad (2 # 1000).

Definition dark_fw (u : Uniforms Q) (st st_dx st_dy : vec2 Q) : Q :=
  fwidth_of (darkNoiseValue01 u st) (darkNoiseValue01 u st_dx)
            (darkNoiseValue01 u st_dy).

Definition foam_fw (u : Uniforms Q) (st st_dx st_dy : vec2 Q) : Q :=
  fwidth_of (foamSimplexValue01 u st) (foamSimplexValue01 u st_dx)
            (foamSimplexValue01 u st_dy).

(** The dark-line threshold ramp lies wholly below the noise value. *)
Definition dark_is_off (u : Uniforms Q) (st st_dx st_dy : vec2 Q) : Prop :=
  0 < dark_fw u st st_dx st_dy /\
  (1 # 2) + dark_fw u st st_dx st_dy * (15 # 10) <= darkNoiseValue01 u st.

(** The noise value lies below the top of the dark-line threshold ramp. *)
Definition dark_is_on (u : Uniforms Q) (st st_dx st_dy : vec2 Q) : Prop :=
  0 < dark_fw u st st_dx st_dy /\
  darkNoiseValue01 u st < (1 # 2) + dark_fw u st st_dx st_dy * (15 # 10).

(** The noise value lies below both ramps of the foam band. *)
Definition foam_is_off (u : Uniforms Q) (st st_dx st_dy : vec2 Q) : Prop :=
  0 < foam_fw u st st_dx st_dy /\
  foamSimplexValue01 u st <= (58 # 100) - foam_fw u st st_dx st_dy * 5.

(** The breakup noise lies strictly inside the ramp of the breakup mask. *)
Definition mask_is_partial (u : Uniforms Q) (st : vec2 Q) : Prop :=
  625 # 1000 < breakupMaskNoise u st /\ breakupMaskNoise u st < 675 # 1000.

(** Left of the centre line, the distorted distance is past the fade. *)
Definition lap_is_off (u : Uniforms Q) (a : Q) : Prop :=
  a < 1 # 2 /\
  8 # 100 <= distToEdge (Vec2 a (1 # 2))
             + vx2 (edgeDistortion u (Vec2 a (1 # 2))) * (1 # 2).

Definition st_here : vec2 Q := Vec2 (2 # 25) (37 # 100).
Definition st_fine_dx : vec2 Q := Vec2 (61 # 750) (37 # 100).
Definition st_fine_dy : vec2 Q := Vec2 (2 # 25) (371 # 1000).
Definition st_coarse_dx : vec2 Q := Vec2 (31 # 375) (37 # 100).
Definition st_coarse_dy : vec2 Q := Vec2 (2 # 25) (93 # 250).

(** [a <= b], as the interface decides it. *)
Definition gleb {A} `{GLNum A} (a b : A) : bool := negb (gltb b a).

(** The comparisons behind the sample facts, on the noise values [d]
    (dark), [m] (foam), [b] (breakup), [e] (edge distortion) and the edge
    distance [c]. *)
Definition sample_check {A} `{GLNum A}
    (d d_fx d_fy d_cx d_cy m m_fx m_fy m_cx m_cy b e c : A) : bool :=
  gltb (lit 0) (fwidth_of d d_fx d_fy)
  && gleb (gadd (lit (1 # 2)) (gmul (fwidth_of d d_fx d_fy) (lit (15 # 10)))) d
  && gltb (lit 0) (fwidth_of m m_fx m_fy)
  && gleb m (gsub (lit (58 # 100)) (gmul (fwidth_of m m_fx m_fy) (lit 5)))
  && gltb (lit 0) (fwidth_of d d_cx d_cy)
  && gltb d (gadd (lit (1 # 2)) (gmul (fwidth_of d d_cx d_cy) (lit (15 # 10))))
  && gltb (lit 0) (fwidth_of m m_cx m_cy)
  && gleb m (gsub (lit (58 # 100)) (gmul (fwidth_of m m_cx m_cy) (lit 5)))
  && gltb (lit (625 # 1000)) b && gltb b (lit (675 # 1000))
  && gleb (lit (8 # 100)) (gadd c (gmul e (lit (1 # 2)))).

(** The same, on the noise values of a fragment [st], of its neighbours in
    a fine ([fx], [fy]) and in a coarse ([cx], [cy]) quad, and of the
    point [o] of the surface. *)
Definition sample_test {A} `{GLNum A} (u : Uniforms A)
    (st fx fy cx cy o : vec2 A) : bool :=
  sample_check
    (darkNoiseValue01 u st) (darkNoiseValue01 u fx) (darkNoiseValue01 u fy)
    (darkNoiseValue01 u cx) (darkNoiseValue01 u cy)
    (foamSimplexValue01 u st) (foamSimplexValue01 u fx)
    (foamSimplexValue01 u fy) (foamSimplexValue01 u cx)
    (foamSimplexValue01 u cy)
    (breakupMaskNoise u st) (vx2 (edgeDistortion u o)) (distToEdge o).

(** The sample inputs over machine words. *)
Definition big (st : vec2 Q) : vec2 bigQ := map2 lit st.
Definition big_uniforms : Uniforms bigQ := map_uniforms lit sample_uniforms.

Local Open Scope R_scope.

Definition sample_U : Uniforms R := embed_uniforms sample_uniforms.
Definition fine_R : Quad R := embed_quad fine_quad.
Definition coarse_R : Quad R := embed_quad coarse_quad.

(** * Maps between the carriers

    A map that commutes with every operation of [GLNum] commutes with every
    function written over it.  Two such maps are used: [Q2R], which reads
    the rational values as reals, and [bigQ_value], which reads the values
    computed over machine words as rationals. *)

(** Unfold the interface at the carriers. *)
Ltac glnum :=
  cbn [lit gadd gsub gmul gopp gdiv gfloor gltb GLNum_Q GLNum_R GLNum_bigQ] in *.

Section Embedding.

Lemma Q2R_Qred (q : Q) : Q2R (Qred q) = Q2R q.
Proof. apply Qeq_eqR, Qred_correct. Qed.

Lemma Q2R_inject_Z (z : Z) : Q2R (inject_Z z) = IZR z.
Proof. unfold Q2R; simpl. field. Qed.

Lemma Q2R_lit (q : Q) : Q2R (lit q) = lit q.
Proof. glnum. apply Q2R_Qred. Qed.

Lemma Q2R_gadd (a b : Q) : Q2R (gadd a b) = gadd (Q2R a) (Q2R b).
Proof. glnum. now rewrite Q2R_Qred, Q2R_plus. Qed.

Lemma Q2R_gsub (a b : Q) : Q2R (gsub a b) = gsub (Q2R a) (Q2R b).
Proof. glnum. now rewrite Q2R_Qred, Q2R_minus. Qed.

Lemma Q2R_gmul (a b : Q) : Q2R (gmul a b) = gmul (Q2R a) (Q2R b).
Proof. glnum. now rewrite Q2R_Qred, Q2R_mult. Qed.

Lemma Q2R_gopp (a : Q) : Q2R (gopp a) = gopp (Q2R a).
Proof. glnum. now rewrite Q2R_Qred, Q2R_opp. Qed.

Lemma Q2R_zero_iff (b : Q) : Q2R b = 0 <-> b == 0.
Proof.
  split; intros E.
  - apply eqR_Qeq. rewrite E. unfold Q2R; simpl; lra.
  - rewrite (Qeq_eqR _ _ E). unfold Q2R; simpl; lra.
Qed.

Lemma Q2R_gdiv (a b : Q) : Q2R (gdiv a b) = gdiv (Q2R a) (Q2R b).
Proof.
  glnum. rewrite Q2R_Qred.
  destruct (Qeq_dec b 0) as [E | N].
  - assert (Eb : Q2R b = 0) by now apply Q2R_zero_iff.
    rewrite Eb. unfold Rdiv. rewrite Rinv_0, Rmult_0_r.
    apply Q2R_zero_iff. rewrite E. unfold Qdiv, Qinv; simpl. ring.
  - now apply Q2R_div.
Qed.

Lemma Q2R_gfloor (a : Q) : Q2R (gfloor a) = gfloor (Q2R a).
Proof.
  glnum. rewrite Q2R_inject_Z. f_equal. symmetry. apply Zfloor_eq.
  pose proof (Qle_Rle _ _ (Qfloor_le a)) as Hl.
  pose proof (Qlt_Rlt _ _ (Qlt_floor a)) as Hu.
  rewrite Q2R_inject_Z in Hl, Hu. rewrite plus_IZR in Hu. lra.
Qed.

Lemma Qltb_spec (a b : Q) : Qltb a b = true <-> (a < b)%Q.
Proof. unfold Qltb, Qlt. apply Z.ltb_lt. Qed.

Lemma Q2R_gltb (a b : Q) : gltb (Q2R a) (Q2R b) = gltb a b.
Proof.
  glnum. unfold Rltb.
  destruct (Rlt_dec (Q2R a) (Q2R b)) as [L | L];
    destruct (Qltb a b) eqn:E; try reflexivity.
  - apply Rlt_Qlt, Qltb_spec in L. congruence.
  - apply Qltb_spec, Qlt_Rlt in E. contradiction.
Qed.

(** The rationals read as reals. *)
Lemma Q2R_hom : GLHom Q2R.
Proof.
  constructor.
  - exact Q2R_lit.
  - exact Q2R_gadd.
  - exact Q2R_gsub.
  - exact Q2R_gmul.
  - exact Q2R_gopp.
  - exact Q2R_gdiv.
  - exact Q2R_gfloor.
  - exact Q2R_gltb.
Qed.

Lemma bigQ_floor_spec (a : bigQ) :
  BigQ.to_Q (bigQ_floor a) = inject_Z (Qfloor (BigQ.to_Q a)).
Proof.
  destruct a as [z | n d]; cbn [bigQ_floor BigQ.to_Q].
  - unfold Qfloor, inject_Z. now rewrite Z.div_1_r.
  - destruct (BigN.eqb d BigN.zero) eqn:E; cbn [BigQ.to_Q].
    + reflexivity.
    + rewrite BigZ.spec_div. cbn [BigZ.to_Z].
      unfold Qfloor, inject_Z. f_equal. f_equal.
      rewrite BigN.spec_eqb, BigN.spec_0 in E.
      apply Z.eqb_neq in E.
      pose proof (BigN.spec_pos d).
      rewrite Z2Pos.id; [reflexivity | lia].
Qed.

Lemma Qred_inject_Z (z : Z) : Qred (inject_Z z) = inject_Z z.
Proof.
  unfold inject_Z, Qred.
  pose proof (Z.ggcd_gcd z 1) as Hg.
  pose proof (Z.ggcd_correct_divisors z 1) as Hd.
  destruct (Z.ggcd z 1) as [g [a b]]. cbn [fst snd] in *.
  rewrite Z.gcd_1_r in Hg. subst g. destruct Hd as [Ha Hb].
  rewrite Z.mul_1_l in Ha, Hb. subst a b. reflexivity.
Qed.

(** The values computed over machine words, read as rationals in lowest
    terms: the reading is exact, operation by operation. *)
Lemma bigQ_value_hom : GLHom bigQ_value.
Proof.
  unfold bigQ_value.
  constructor; intros; glnum.
  - apply Qred_complete, BigQ.spec_of_Q.
  - apply Qred_complete. now rewrite BigQ.spec_add_norm, !Qred_correct.
  - apply Qred_complete. now rewrite BigQ.spec_sub_norm, !Qred_correct.
  - apply Qred_complete. now rewrite BigQ.spec_mul_norm, !Qred_correct.
  - apply Qred_complete. now rewrite BigQ.spec_opp, !Qred_correct.
  - apply Qred_complete. now rewrite BigQ.spec_div_norm, !Qred_correct.
  - rewrite bigQ_floor_spec, Qred_inject_Z. f_equal.
    apply Qfloor_comp. symmetry. apply Qred_correct.
  - unfold bigQ_ltb. rewrite BigQ.spec_compare.
    pose proof (Qlt_alt (BigQ.to_Q a) (BigQ.to_Q b)) as HA.
    assert (HB : Qltb (Qred (BigQ.to_Q a)) (Qred (BigQ.to_Q b)) = true
                 <-> (BigQ.to_Q a < BigQ.to_Q b)%Q).
    { rewrite Qltb_spec, !Qred_correct. reflexivity. }
    destruct (Qltb _ _); destruct (BigQ.to_Q a ?= BigQ.to_Q b)%Q;
      try reflexivity; exfalso.
    + assert (Eq = Lt) by (apply HA, HB; reflexivity). discriminate.
    + assert (Gt = Lt) by (apply HA, HB; reflexivity). discriminate.
    + assert (false = true) by (apply HB, HA; reflexivity). discriminate.
Qed.

End Embedding.

#[export] Existing Instance Q2R_hom.
#[export] Existing Instance bigQ_value_hom.

Create Rewrite HintDb hom.

(** Componentwise normal form of a let-free vector expression. *)
Ltac vec_norm :=
  cbv beta iota delta [map2 map3 map4 zip2 zip3 zip4 yzx zxy xzyw
    xxyy zzww splat3 splat4 dot3 dot4 add2 add3 sub3 add4 sub4
    mul4 adds3 adds4 sadd4 ssub3 ssub4 scale2 scale3 scale4 sscale4
    vx2 vy2 vx3 vy3 vz3 vx4 vy4 vz4 vw4].

Ltac hom_vec := vec_norm; autorewrite with hom; reflexivity.

(** One step through a [let]: the bound values at the two carriers are
    related by the map [f]; the bodies are then compared at an arbitrary
    value. *)
Lemma let_embed {X X' Y Y'} (f : X -> X') (g : Y -> Y')
    (a : X) (a' : X') (b : X -> Y) (b' : X' -> Y') :
  f a = a' -> (forall x, g (b x) = b' (f x)) ->
  g (let x := a in b x) = (let y := a' in b' y).
Proof. intros <- Hb. apply Hb. Qed.

Lemma option_map_bind {X Y X' Y'} (f : X -> X') (g : Y -> Y')
    (m : option X) (k : X -> option Y) (m' : option X') (k' : X' -> option Y') :
  m' = option_map f m ->
  (forall x, k' (f x) = option_map g (k x)) ->
  bind m' k' = option_map g (bind m k).
Proof. intros -> Hk. destruct m; cbn; [apply Hk | reflexivity]. Qed.

Ltac destruct_vec x :=
  lazymatch type of x with
  | vec2 _ => destruct x as [? ?]
  | vec3 _ => destruct x as [? ? ?]
  | vec4 _ => destruct x as [? ? ? ?]
  | _ => idtac
  end.

Ltac hom_let_with f :=
  lazymatch goal with
  | |- ?g (let x := ?a in @?b x) = (let y := ?a' in @?b' y) =>
      let x := fresh "x" in
      refine (@let_embed _ _ _ _ f g a a' b b' _ _);
      [ hom_vec | intros x; cbv beta; destruct_vec x ]
  end.

Ltac unfold_params :=
  unfold masterTimeFactor, mainCurrentFrequency, mainCurrentSpeed,
    mainCurrentStrength, foamCurrentFrequency, foamCurrentSpeed,
    foamCurrentStrength, darkWaveFrequency, waveSpeedDark, darkLineThreshold,
    darkLineSharpness, foamBandFrequency, waveSpeedFoam, foamBandStart,
    foamBandEnd, foamBandSharpness, breakupNoiseFreq, breakupNoiseSpeed,
    breakupStrength, breakupThreshold, breakupSmoothness, darkLineOpacity,
    staticGlowAlpha, staticGlowDistance, staticGlowDarkBoost,
    lapWaveDistortionFreq, lapWaveDistortionStrength, edgeWaveFadeDistance,
    radialWaveDistortionFreq, radialWaveDistortionStrength,
    radialWaveMaskFreq, radialWaveMaskSpeed, radialWaveMaskThreshold,
    radialWaveMaskSmoothness in *.

Ltac hom_stage :=
  unfold_params;
  cbn [map_uniforms map_varyings map_quad resolution time patternScale
       timeScale vUv vUv2 here beside above];
  unfold vec3_of;
  hom_vec.

Section Hom.
Context {A B : Type} {HA : GLNum A} {HB : GLNum B}.
Variable f : A -> B.
Context {Hf : GLHom f}.

Hint Rewrite (hom_lit (f:=f)) (hom_gadd (f:=f)) (hom_gsub (f:=f))
  (hom_gmul (f:=f)) (hom_gopp (f:=f)) (hom_gdiv (f:=f))
  (hom_gfloor (f:=f)) : hom.

Lemma hom_step (e x : A) : f (step e x) = step (f e) (f x).
Proof.
  unfold step. rewrite (hom_gltb (f:=f)).
  destruct (gltb x e); apply hom_lit.
Qed.

Lemma hom_gmin (x y : A) : f (gmin x y) = gmin (f x) (f y).
Proof. unfold gmin. rewrite (hom_gltb (f:=f)). now destruct (gltb y x). Qed.

Lemma hom_gmax (x y : A) : f (gmax x y) = gmax (f x) (f y).
Proof. unfold gmax. rewrite (hom_gltb (f:=f)). now destruct (gltb x y). Qed.

Lemma hom_gabs (x : A) : f (gabs x) = gabs (f x).
Proof.
  unfold gabs. rewrite <- (hom_lit (f:=f) 0), (hom_gltb (f:=f)).
  destruct (gltb x (lit 0)); [apply hom_gopp | reflexivity].
Qed.

Hint Rewrite hom_step hom_gmin hom_gmax hom_gabs : hom.

Lemma hom_mod289 (x : A) : f (mod289 x) = mod289 (f x).
Proof. unfold mod289. hom_vec. Qed.
Hint Rewrite hom_mod289 : hom.

Lemma hom_permute (x : A) : f (permute x) = permute (f x).
Proof. unfold permute. hom_vec. Qed.
Hint Rewrite hom_permute : hom.

Lemma hom_taylorInvSqrt (x : A) : f (taylorInvSqrt x) = taylorInvSqrt (f x).
Proof. unfold taylorInvSqrt. hom_vec. Qed.
Hint Rewrite hom_taylorInvSqrt : hom.

Ltac hom_let :=
  lazymatch goal with
  | |- _ (let x := ?a in _) = _ =>
      lazymatch type of a with
      | vec2 _ => hom_let_with (map2 f)
      | vec3 _ => hom_let_with (map3 f)
      | vec4 _ => hom_let_with (map4 f)
      | _ => hom_let_with (fun c : A => f c)
      end
  end.

Lemma hom_snoise (v : vec3 A) : f (snoise v) = snoise (map3 f v).
Proof.
  destruct v as [a b c].
  cbv beta delta [snoise].
  repeat hom_let.
  hom_vec.
Qed.

Lemma hom_snoise3 (a b c : A) :
  f (snoise (Vec3 a b c)) = snoise (Vec3 (f a) (f b) (f c)).
Proof. apply hom_snoise. Qed.
Hint Rewrite hom_snoise3 : hom.

Lemma hom_is_zero (a : A) : is_zero (f a) = is_zero a.
Proof.
  unfold is_zero. now rewrite <- (hom_lit (f:=f) 0), !(hom_gltb (f:=f)).
Qed.

Lemma hom_clamp (x lo hi : A) :
  f (clamp x lo hi) = clamp (f x) (f lo) (f hi).
Proof. unfold clamp. hom_vec. Qed.
Hint Rewrite hom_clamp : hom.

Lemma hom_smoothstep (e0 e1 x : A) :
  smoothstep (f e0) (f e1) (f x) = option_map f (smoothstep e0 e1 x).
Proof.
  unfold smoothstep. rewrite <- (hom_gsub (f:=f)), hom_is_zero.
  destruct (is_zero (e1 - e0)%gl); [reflexivity |].
  cbn [option_map]. f_equal. hom_vec.
Qed.

Lemma hom_fwidth_of (p p_dx p_dy : A) :
  f (fwidth_of p p_dx p_dy) = fwidth_of (f p) (f p_dx) (f p_dy).
Proof. unfold fwidth_of. hom_vec. Qed.

Lemma hom_calculate_line_intensity (fw n t sh : A) :
  calculate_line_intensity (f fw) (f n) (f t) (f sh)
  = option_map f (calculate_line_intensity fw n t sh).
Proof.
  unfold calculate_line_intensity.
  eapply option_map_bind.
  - rewrite <- (hom_gmul (f:=f)), <- (hom_gsub (f:=f)), <- (hom_gadd (f:=f)).
    apply hom_smoothstep.
  - intros s. cbn [option_map]. f_equal. hom_vec.
Qed.

Lemma hom_calculate_band_intensity (fw n b0 b1 sh : A) :
  calculate_band_intensity (f fw) (f n) (f b0) (f b1) (f sh)
  = option_map f (calculate_band_intensity fw n b0 b1 sh).
Proof.
  unfold calculate_band_intensity.
  eapply option_map_bind.
  - rewrite <- (hom_gmul (f:=f)), <- (hom_gsub (f:=f)), <- (hom_gadd (f:=f)).
    apply hom_smoothstep.
  - intros up. eapply option_map_bind.
    + rewrite <- (hom_gmul (f:=f)), <- (hom_gsub (f:=f)), <- (hom_gadd (f:=f)).
      apply hom_smoothstep.
    + intros down. cbn [option_map]. f_equal. hom_vec.
Qed.

Variable u : Uniforms A.

Lemma hom_masterTime : f (masterTime u) = masterTime (map_uniforms f u).
Proof. unfold masterTime. hom_stage. Qed.

Lemma hom_aspect_st (uv2 : vec2 A) :
  aspect_st (map_uniforms f u) (map2 f uv2)
  = option_map (map2 f) (aspect_st u uv2).
Proof.
  unfold aspect_st. destruct uv2 as [a b].
  cbn [map_uniforms resolution map2 vx2 vy2].
  rewrite hom_is_zero. destruct (is_zero _); [reflexivity |].
  cbn [option_map]. f_equal. hom_stage.
Qed.

Lemma hom_calculate_main_current (st : vec2 A) (t fr s : A) :
  map2 f (calculate_main_current u st t fr s)
  = calculate_main_current (map_uniforms f u) (map2 f st) (f t) (f fr) (f s).
Proof. destruct st. unfold calculate_main_current. hom_stage. Qed.

Lemma hom_calculate_foam_current (st : vec2 A) (t fr s : A) :
  map2 f (calculate_foam_current u st t fr s)
  = calculate_foam_current (map_uniforms f u) (map2 f st) (f t) (f fr) (f s).
Proof. destruct st. unfold calculate_foam_current. hom_stage. Qed.

Ltac hom_noise :=
  unfold dark_final_st, foam_final_st, mainCurrentVector, foamCurrentVector,
    calculate_main_current, calculate_foam_current, masterTime;
  hom_stage.

Lemma hom_darkNoiseValue01 (st : vec2 A) :
  darkNoiseValue01 (map_uniforms f u) (map2 f st)
  = f (darkNoiseValue01 u st).
Proof. destruct st. unfold darkNoiseValue01. hom_noise. Qed.

Lemma hom_foamSimplexValue01 (st : vec2 A) :
  foamSimplexValue01 (map_uniforms f u) (map2 f st)
  = f (foamSimplexValue01 u st).
Proof. destruct st. unfold foamSimplexValue01. hom_noise. Qed.

Lemma hom_breakupMaskNoise (st : vec2 A) :
  breakupMaskNoise (map_uniforms f u) (map2 f st)
  = f (breakupMaskNoise u st).
Proof. destruct st. unfold breakupMaskNoise. hom_noise. Qed.

Lemma hom_edgeDistortion (st_orig : vec2 A) :
  edgeDistortion (map_uniforms f u) (map2 f st_orig)
  = map2 f (edgeDistortion u st_orig).
Proof. destruct st_orig. unfold edgeDistortion. hom_noise. Qed.

Lemma hom_distToEdge (st_orig : vec2 A) :
  distToEdge (map2 f st_orig) = f (distToEdge st_orig).
Proof. destruct st_orig. unfold distToEdge. hom_stage. Qed.

Lemma hom_breakupMask (st : vec2 A) :
  breakupMask (map_uniforms f u) (map2 f st)
  = option_map f (breakupMask u st).
Proof.
  unfold breakupMask. rewrite hom_breakupMaskNoise.
  rewrite <- hom_smoothstep. f_equal; hom_stage.
Qed.

Lemma hom_angleDistortion (st : vec2 A) :
  angleDistortion (map_uniforms f u) (map2 f st)
  = f (angleDistortion u st).
Proof. destruct st. unfold angleDistortion. hom_noise. Qed.

Lemma hom_radialMask (st : vec2 A) :
  radialMask (map_uniforms f u) (map2 f st)
  = option_map f (radialMask u st).
Proof.
  destruct st. unfold radialMask.
  rewrite <- hom_smoothstep. f_equal; hom_noise.
Qed.

Lemma hom_lineVisibilityMask (s : A) (st : vec2 A) :
  lineVisibilityMask (map_uniforms f u) (f s) (map2 f st)
  = option_map f (lineVisibilityMask u s st).
Proof.
  unfold lineVisibilityMask. eapply option_map_bind.
  - apply hom_breakupMask.
  - intros m. cbn [option_map]. f_equal. hom_vec.
Qed.

Lemma hom_fwidth (p : vec2 A -> A) (p' : vec2 B -> B) (q : Quad A) :
  (forall st, p' (map2 f st) = f (p st)) ->
  fwidth (map_uniforms f u) p' (map_quad f q) = option_map f (fwidth u p q).
Proof.
  intros Hp. unfold fwidth.
  cbn [map_quad map_varyings here beside above vUv2].
  eapply option_map_bind; [apply hom_aspect_st | intros st].
  eapply option_map_bind; [apply hom_aspect_st | intros st_dx].
  eapply option_map_bind; [apply hom_aspect_st | intros st_dy].
  cbn [option_map]. f_equal. rewrite !Hp. symmetry. apply hom_fwidth_of.
Qed.

Lemma hom_darkLineIntensity (s : A) (q : Quad A) :
  darkLineIntensity (map_uniforms f u) (f s) (map_quad f q)
  = option_map f (darkLineIntensity u s q).
Proof.
  unfold darkLineIntensity.
  eapply option_map_bind; [apply hom_aspect_st | intros st].
  eapply option_map_bind; [apply hom_lineVisibilityMask | intros vis].
  eapply option_map_bind;
    [apply hom_fwidth, hom_darkNoiseValue01 | intros fw].
  eapply option_map_bind.
  - rewrite hom_darkNoiseValue01.
    rewrite <- hom_calculate_line_intensity. f_equal; hom_stage.
  - intros i. cbn [option_map]. f_equal. hom_stage.
Qed.

Lemma hom_foamIntensity_base (q : Quad A) :
  foamIntensity_base (map_uniforms f u) (map_quad f q)
  = option_map f (foamIntensity_base u q).
Proof.
  unfold foamIntensity_base.
  eapply option_map_bind; [apply hom_aspect_st | intros st].
  eapply option_map_bind;
    [apply hom_fwidth, hom_foamSimplexValue01 | intros fw].
  rewrite hom_foamSimplexValue01.
  rewrite <- hom_calculate_band_intensity. f_equal; hom_stage.
Qed.

Lemma hom_foamIntensity_masked (s : A) (q : Quad A) :
  foamIntensity_masked (map_uniforms f u) (f s) (map_quad f q)
  = option_map f (foamIntensity_masked u s q).
Proof.
  unfold foamIntensity_masked.
  eapply option_map_bind; [apply hom_aspect_st | intros st].
  eapply option_map_bind; [apply hom_lineVisibilityMask | intros vis].
  eapply option_map_bind; [apply hom_foamIntensity_base | intros base].
  cbn [option_map]. f_equal. hom_vec.
Qed.

Lemma hom_gleb (a b : A) : gleb (f a) (f b) = gleb a b.
Proof. unfold gleb. now rewrite (hom_gltb (f:=f)). Qed.

Lemma hom_sample_check
    (d d_fx d_fy d_cx d_cy m m_fx m_fy m_cx m_cy b e c : A) :
  sample_check (f d) (f d_fx) (f d_fy) (f d_cx) (f d_cy)
               (f m) (f m_fx) (f m_fy) (f m_cx) (f m_cy) (f b) (f e) (f c)
  = sample_check d d_fx d_fy d_cx d_cy m m_fx m_fy m_cx m_cy b e c.
Proof.
  unfold sample_check.
  rewrite <- !hom_fwidth_of, <- !(hom_lit (f:=f)).
  rewrite <- !(hom_gmul (f:=f)).
  rewrite <- !(hom_gadd (f:=f)), <- !(hom_gsub (f:=f)).
  now rewrite !(hom_gltb (f:=f)), !hom_gleb.
Qed.

Lemma hom_sample_test (st fx fy cx cy o : vec2 A) :
  sample_test (map_uniforms f u) (map2 f st) (map2 f fx) (map2 f fy)
              (map2 f cx) (map2 f cy) (map2 f o)
  = sample_test u st fx fy cx cy o.
Proof.
  unfold sample_test.
  rewrite !hom_darkNoiseValue01, !hom_foamSimplexValue01,
    hom_breakupMaskNoise, hom_edgeDistortion, hom_distToEdge.
  change (vx2 (map2 f (edgeDistortion u o)))
    with (f (vx2 (edgeDistortion u o))).
  apply hom_sample_check.
Qed.

End Hom.

(** The stages at the rationals, read as reals. *)
Section Stages.
Variable u : Uniforms Q.

Lemma Q2R_snoise (v : vec3 Q) : Q2R (snoise v) = snoise (map3 Q2R v).
Proof. exact (hom_snoise Q2R v). Qed.

Lemma Q2R_aspect_st (uv2 : vec2 Q) :
  aspect_st (embed_uniforms u) (map2 Q2R uv2)
  = option_map (map2 Q2R) (aspect_st u uv2).
Proof. exact (hom_aspect_st Q2R u uv2). Qed.

Lemma Q2R_darkNoiseValue01 (st : vec2 Q) :
  darkNoiseValue01 (embed_uniforms u) (map2 Q2R st)
  = Q2R (darkNoiseValue01 u st).
Proof. exact (hom_darkNoiseValue01 Q2R u st). Qed.

Lemma Q2R_foamSimplexValue01 (st : vec2 Q) :
  foamSimplexValue01 (embed_uniforms u) (map2 Q2R st)
  = Q2R (foamSimplexValue01 u st).
Proof. exact (hom_foamSimplexValue01 Q2R u st). Qed.

Lemma Q2R_breakupMaskNoise (st : vec2 Q) :
  breakupMaskNoise (embed_uniforms u) (map2 Q2R st)
  = Q2R (breakupMaskNoise u st).
Proof. exact (hom_breakupMaskNoise Q2R u st). Qed.

Lemma Q2R_edgeDistortion (st_orig : vec2 Q) :
  edgeDistortion (embed_uniforms u) (map2 Q2R st_orig)
  = map2 Q2R (edgeDistortion u st_orig).
Proof. exact (hom_edgeDistortion Q2R u st_orig). Qed.

Lemma Q2R_distToEdge (st_orig : vec2 Q) :
  distToEdge (map2 Q2R st_orig) = Q2R (distToEdge st_orig).
Proof. exact (hom_distToEdge Q2R st_orig). Qed.

Lemma Q2R_fwidth (p : vec2 Q -> Q) (p' : vec2 R -> R) (q : Quad Q) :
  (forall st, p' (map2 Q2R st) = Q2R (p st)) ->
  fwidth (embed_uniforms u) p' (embed_quad q) = option_map Q2R (fwidth u p q).
Proof. exact (hom_fwidth Q2R u p p' q). Qed.

Lemma Q2R_darkLineIntensity (s : Q) (q : Quad Q) :
  darkLineIntensity (embed_uniforms u) (Q2R s) (embed_quad q)
  = option_map Q2R (darkLineIntensity u s q).
Proof. exact (hom_darkLineIntensity Q2R u s q). Qed.

Lemma Q2R_foamIntensity_masked (s : Q) (q : Quad Q) :
  foamIntensity_masked (embed_uniforms u) (Q2R s) (embed_quad q)
  = option_map Q2R (foamIntensity_masked u s q).
Proof. exact (hom_foamIntensity_masked Q2R u s q). Qed.

End Stages.

Ltac rnorm :=
  cbn [lit gadd gsub gmul gopp gdiv gfloor GLNum_R] in *;
  unfold Q2R in *; cbn [Qnum Qden] in *;
  rewrite ?Rinv_1, ?Rmult_1_r in *.

Lemma gmax_R (a b : R) : gmax a b = Rmax a b.
Proof.
  unfold gmax, Rmax; cbn [gltb GLNum_R]; unfold Rltb.
  destruct (Rlt_dec a b), (Rle_dec a b); lra.
Qed.
Lemma gmin_R (a b : R) : gmin a b = Rmin a b.
Proof.
  unfold gmin, Rmin; cbn [gltb GLNum_R]; unfold Rltb.
  destruct (Rlt_dec b a), (Rle_dec a b); lra.
Qed.
Lemma is_zero_R (a : R) : is_zero a = true <-> a = 0.
Proof.
  unfold is_zero; cbn [gltb GLNum_R]; unfold Rltb. rnorm.
  destruct (Rlt_dec a 0), (Rlt_dec 0 a); cbn; split; intros; try discriminate; try lra; auto.
Qed.
Ltac case_minmax :=
  unfold Rmin, Rmax in *;
  repeat match goal with
         | |- context [Rle_dec ?a ?b] => destruct (Rle_dec a b)
         | H : context [Rle_dec ?a ?b] |- _ => destruct (Rle_dec a b)
         end.

Lemma clamp_R (x lo hi : R) : clamp x lo hi = Rmin (Rmax x lo) hi.
Proof. unfold clamp. now rewrite gmax_R, gmin_R. Qed.
Lemma clamp_bounds (x lo hi : R) : lo <= hi -> lo <= clamp x lo hi <= hi.
Proof.
  intros Hle. rewrite clamp_R. case_minmax; lra.
Qed.

Lemma bind_some {X Y} (m : option X) (k : X -> option Y) (y : Y) :
  bind m k = Some y -> exists x, m = Some x /\ k x = Some y.
Proof. destruct m as [x |]; cbn; [eauto | discriminate]. Qed.

Ltac inv_bind H :=
  let x := fresh "v" in
  let E := fresh "E" in
  apply bind_some in H; destruct H as (x & E & H).

Tactic Notation "bind_inv" hyp(H) "as" ident(x) ident(E) :=
  apply bind_some in H; destruct H as (x & E & H).

Lemma hermite_range t : 0 <= t <= 1 -> 0 <= hermite t <= 1.
Proof.
  unfold hermite; intros [H0 H1]. split.
  - apply Rmult_le_pos; nra.
  - assert (0 <= (1 - t) * (1 - t) * (1 + 2 * t)) by (apply Rmult_le_pos; nra).
    nra.
Qed.

Lemma hermite_mono a b : 0 <= a -> a <= b -> b <= 1 -> hermite a <= hermite b.
Proof.
  unfold hermite; intros.
  assert (0 <= (b - a) * (3 * (a + b) - 2 * (a * a + a * b + b * b))).
  { apply Rmult_le_pos; [lra |].
    assert (0 <= a * (1 - a)) by (apply Rmult_le_pos; lra).
    assert (0 <= b * (1 - b)) by (apply Rmult_le_pos; lra).
    assert (0 <= a * (1 - b)) by (apply Rmult_le_pos; lra).
    nra. }
  nra.
Qed.

Lemma smoothstep_eq (e0 e1 x : R) :
  e1 <> e0 ->
  smoothstep e0 e1 x = Some (hermite (clamp ((x - e0) / (e1 - e0)) 0 1)).
Proof.
  intros Hne. unfold smoothstep. rnorm.
  destruct (is_zero (e1 - e0)) eqn:Z.
  - apply is_zero_R in Z. lra.
  - reflexivity.
Qed.

Lemma smoothstep_undefined (e0 x : R) : smoothstep e0 e0 x = None.
Proof.
  unfold smoothstep. rnorm.
  replace (is_zero (e0 - e0)) with true; [reflexivity |].
  symmetry. apply is_zero_R. lra.
Qed.

Lemma smoothstep_inv (e0 e1 x s : R) :
  smoothstep e0 e1 x = Some s ->
  e1 <> e0 /\ s = hermite (clamp ((x - e0) / (e1 - e0)) 0 1).
Proof.
  intros Hs. destruct (Req_dec_T e1 e0) as [-> | Hne].
  - rewrite smoothstep_undefined in Hs. discriminate.
  - rewrite smoothstep_eq in Hs by assumption. split; congruence.
Qed.

Lemma smoothstep_range (e0 e1 x s : R) :
  smoothstep e0 e1 x = Some s -> 0 <= s <= 1.
Proof.
  intros Hs. apply smoothstep_inv in Hs as [_ ->].
  apply hermite_range, clamp_bounds; lra.
Qed.

Lemma glsl_pow_pos (x y : R) : 0 < x -> glsl_pow x y = Some (Rpower x y).
Proof.
  intros Hx. unfold glsl_pow.
  destruct (Rlt_dec x 0); [lra |]. destruct (Rlt_dec 0 x); [reflexivity | lra].
Qed.

Lemma glsl_pow_zero (y : R) : 0 < y -> glsl_pow 0 y = Some 0.
Proof.
  intros Hy. unfold glsl_pow.
  destruct (Rlt_dec 0 0); [lra |]. destruct (Rlt_dec 0 y); [reflexivity | lra].
Qed.

Lemma Rpower_le_1 (x y : R) : 0 < x <= 1 -> 0 <= y -> Rpower x y <= 1.
Proof.
  intros [Hx Hx1] Hy. unfold Rpower.
  rewrite <- exp_0.
  destruct (Req_dec_T (y * ln x) 0) as [-> | Hne]; [lra |].
  left. apply exp_increasing.
  assert (ln x <= 0).
  { rewrite <- ln_1. destruct (Req_dec_T x 1) as [-> | Hx']; [lra |].
    left. apply ln_increasing; lra. }
  nra.
Qed.

Lemma glsl_pow_unit (x y : R) :
  0 <= x <= 1 -> 0 < y -> exists p, glsl_pow x y = Some p /\ 0 <= p <= 1.
Proof.
  intros [Hx Hx1] Hy. destruct (Req_dec_T x 0) as [-> | Hne].
  - exists 0. split; [now apply glsl_pow_zero | lra].
  - exists (Rpower x y). split; [apply glsl_pow_pos; lra |].
    split; [left; apply exp_pos | apply Rpower_le_1; lra].
Qed.

Lemma glsl_pow_nonneg (x y p : R) : glsl_pow x y = Some p -> 0 <= p.
Proof.
  unfold glsl_pow. intros Hp.
  destruct (Rlt_dec x 0); [discriminate |].
  destruct (Rlt_dec 0 x).
  - injection Hp as <-. left. apply exp_pos.
  - destruct (Rlt_dec 0 y); [injection Hp as <-; lra | discriminate].
Qed.

Lemma layers_inv (s : R) (u : Uniforms R) (q : Quad R) (L : Layers) :
  layers s u q = Some L ->
  exists st,
    aspect_st u (vUv2 (here q)) = Some st /\
    darkLineIntensity u s q = Some (L_darkLineIntensity L) /\
    foamIntensity_masked u s q = Some (L_foamIntensity_masked L) /\
    staticGlowFactor (distToEdge (vUv (here q))) = Some (L_staticGlowFactor L) /\
    lapLineIntensity_final u (vUv (here q)) = Some (L_lapLineIntensity_final L) /\
    radialWaveIntensity_final u st = Some (L_radialWaveIntensity_final L).
Proof.
  unfold layers. intros H.
  inv_bind H. inv_bind H. inv_bind H. inv_bind H. inv_bind H. inv_bind H.
  injection H as <-. cbn. eauto 10.
Qed.

Lemma staticGlowFactor_range (d g : R) :
  staticGlowFactor d = Some g -> 0 <= g <= 1.
Proof.
  unfold staticGlowFactor. intros H. inv_bind H. inv_bind H. injection H as <-.
  apply smoothstep_range in E.
  destruct (glsl_pow_unit v staticGlowSharpness E) as (p & Hp & Hp01).
  { unfold staticGlowSharpness. lra. }
  assert (v0 = p) by congruence. subst v0. nra.
Qed.

Ltac composite_unfold :=
  unfold gl_FragColor, finalColor, colorWithGlow, baseColor, glowBoost, mix3, mix,
    colorBackground, colorDarkLine, colorFoamLine, colorStaticGlow,
    staticGlowAlpha, staticGlowDarkBoost;
  cbn [map3 zip3 vx3 vy3 vz3 vx4 vy4 vz4 vw4];
  rnorm.


Lemma channel_lower (b k f d g T : R) :
  12 / 100 <= b -> 12 / 100 <= k -> 12 / 100 <= f ->
  0 <= d <= 1 -> 0 <= g -> 0 <= T <= 1 ->
  12 / 100 <=
    (b * (1 - d) + k * d + 1 * g * (5 / 10) * (1 * (1 - d) + 18 / 10 * d))
      * (1 - T) + f * T.
Proof.
  intros Hb Hk Hf [Hd0 Hd1] Hg [HT0 HT1].
  assert (12 / 100 <= b * (1 - d) + k * d) by nra.
  assert (0 <= 1 * g * (5 / 10) * (1 * (1 - d) + 18 / 10 * d)).
  { apply Rmult_le_pos; nra. }
  nra.
Qed.

(** C10.  Whatever colour [main] returns, each channel is at least [0.12]:
    already the value before the final clamp is, so the lower bound of that
    clamp is never active. *)
Theorem output_channels_at_least_dark (u : Uniforms R) (q : Quad R) (c : vec4 R) :
  main u q = Some c ->
  exists L, layers breakupStrength u q = Some L /\
    let unclamped := mix3 (colorWithGlow L) colorFoamLine (totalFoamIntensity L) in
    (0.12 <= vx3 unclamped /\ 0.12 <= vy3 unclamped /\ 0.12 <= vz3 unclamped) /\
    gmax (vx3 unclamped) 0 = vx3 unclamped /\
    gmax (vy3 unclamped) 0 = vy3 unclamped /\
    gmax (vz3 unclamped) 0 = vz3 unclamped /\
    0.12 <= vx4 c /\ 0.12 <= vy4 c /\ 0.12 <= vz4 c.
Proof.
  unfold main, main_with. intros H. inv_bind H. injection H as <-.
  exists v. split; [assumption |].
  destruct (layers_inv _ _ _ _ E) as (st & _ & _ & _ & Hg & _ & _).
  apply staticGlowFactor_range in Hg.
  assert (Hd : 0 <= clamp (L_darkLineIntensity v) 0 1 <= 1)
    by (apply clamp_bounds; lra).
  assert (HT : 0 <= totalFoamIntensity v <= 1)
    by (apply clamp_bounds; lra).
  cbv zeta.
  assert (Hlow :
    0.12 <= vx3 (mix3 (colorWithGlow v) colorFoamLine (totalFoamIntensity v)) /\
    0.12 <= vy3 (mix3 (colorWithGlow v) colorFoamLine (totalFoamIntensity v)) /\
    0.12 <= vz3 (mix3 (colorWithGlow v) colorFoamLine (totalFoamIntensity v))).
  { composite_unfold.
    set (d := clamp (L_darkLineIntensity v) 0 1) in *.
    set (T := totalFoamIntensity v) in *.
    set (g := L_staticGlowFactor v) in *.
    repeat split.
    - apply Rle_trans with (12 / 100); [lra |].
      apply channel_lower; lra.
    - apply Rle_trans with (12 / 100); [lra |].
      apply channel_lower; lra.
    - apply Rle_trans with (12 / 100); [lra |].
      apply channel_lower; lra. }
  destruct Hlow as (Hx & Hy & Hz).
  split; [auto |].
  rewrite !gmax_R.
  unfold gl_FragColor, finalColor. cbn [map3 vx3 vy3 vz3 vx4 vy4 vz4 vw4].
  rewrite !clamp_R. case_minmax; repeat split; lra.
Qed.

Lemma staticGlowFactor_eq (d : R) :
  exists p,
    glsl_pow (hermite (clamp (1 - 4 * d) 0 1)) staticGlowSharpness = Some p /\
    staticGlowFactor d = Some (hermite (clamp (1 - 4 * d) 0 1) * p).
Proof.
  unfold staticGlowFactor, staticGlowDistance. rnorm.
  rewrite smoothstep_eq by lra.
  replace ((d - 25 * / 100) / (0 - 25 * / 100)) with (1 - 4 * d) by field.
  destruct (glsl_pow_unit (hermite (clamp (1 - 4 * d) 0 1)) staticGlowSharpness)
    as (p & Hp & _).
  { apply hermite_range, clamp_bounds; lra. }
  { unfold staticGlowSharpness; lra. }
  exists p. split; [assumption |]. cbn [bind]. rewrite Hp. reflexivity.
Qed.

Lemma clamp_mono (x y lo hi : R) : x <= y -> clamp x lo hi <= clamp y lo hi.
Proof.
  intros Hxy. rewrite !clamp_R. case_minmax; lra.
Qed.

Lemma pow_weight_mono (a b pa pb : R) :
  0 <= a -> a <= b -> b <= 1 ->
  glsl_pow a staticGlowSharpness = Some pa ->
  glsl_pow b staticGlowSharpness = Some pb ->
  a * pa <= b * pb.
Proof.
  intros Ha Hab Hb Hpa Hpb.
  pose proof (glsl_pow_nonneg _ _ _ Hpa) as Hpa0.
  pose proof (glsl_pow_nonneg _ _ _ Hpb) as Hpb0.
  destruct (Req_dec_T a 0) as [-> | Hne].
  - rewrite Rmult_0_l. apply Rmult_le_pos; lra.
  - rewrite glsl_pow_pos in Hpa, Hpb by lra.
    injection Hpa as <-. injection Hpb as <-.
    assert (Rpower a staticGlowSharpness <= Rpower b staticGlowSharpness).
    { apply Rle_Rpower_l; [unfold staticGlowSharpness |]; lra. }
    nra.
Qed.

(** C7.  The static edge glow factor is a function of [distToEdge] alone:
    it is [1] at distance [0], it is [0] from [staticGlowDistance = 0.25]
    on, and it never increases with the distance. *)
Theorem static_glow_falloff :
  staticGlowFactor 0 = Some 1 /\
  (forall d, 0.25 <= d -> staticGlowFactor d = Some 0) /\
  (forall d1 d2, d1 <= d2 ->
     exists g1 g2, staticGlowFactor d1 = Some g1 /\
                   staticGlowFactor d2 = Some g2 /\ g2 <= g1).
Proof.
  split; [| split].
  - destruct (staticGlowFactor_eq 0) as (p & Hp & ->).
    replace (clamp (1 - 4 * 0) 0 1) with 1 in *.
    2:{ rewrite clamp_R. case_minmax; lra. }
    replace (hermite 1) with 1 in * by (unfold hermite; lra).
    rewrite glsl_pow_pos in Hp by lra. injection Hp as <-.
    f_equal. unfold Rpower. rewrite ln_1, Rmult_0_r, exp_0. lra.
  - intros d Hd. destruct (staticGlowFactor_eq d) as (p & Hp & ->).
    replace (clamp (1 - 4 * d) 0 1) with 0.
    2:{ rewrite clamp_R. case_minmax; lra. }
    f_equal. unfold hermite. lra.
  - intros d1 d2 Hle.
    destruct (staticGlowFactor_eq d1) as (p1 & Hp1 & ->).
    destruct (staticGlowFactor_eq d2) as (p2 & Hp2 & ->).
    do 2 eexists. split; [reflexivity |]. split; [reflexivity |].
    assert (H1 : 0 <= clamp (1 - 4 * d1) 0 1 <= 1) by (apply clamp_bounds; lra).
    assert (H2 : 0 <= clamp (1 - 4 * d2) 0 1 <= 1) by (apply clamp_bounds; lra).
    assert (H21 : clamp (1 - 4 * d2) 0 1 <= clamp (1 - 4 * d1) 0 1)
      by (apply clamp_mono; lra).
    apply pow_weight_mono; try assumption.
    + apply hermite_range; assumption.
    + apply hermite_mono; lra.
    + apply hermite_range; assumption.
Qed.

Lemma normalize2_zero : normalize2 (Vec2 0 0) = None.
Proof.
  unfold normalize2, length2, dot2. cbn [vx2 vy2].
  replace (0 * 0 + 0 * 0) with 0 by lra. rewrite sqrt_0.
  destruct (Req_dec_T 0 0); [reflexivity | contradiction].
Qed.

Lemma lapLineIntensity_final_center (u : Uniforms R) :
  lapLineIntensity_final u (Vec2 0.5 0.5) = None.
Proof.
  unfold lapLineIntensity_final, map2. cbn [vx2 vy2].
  replace (0.5 - 0.5) with 0 by lra.
  rewrite normalize2_zero. reflexivity.
Qed.

Lemma layers_center (s : R) (u : Uniforms R) (q : Quad R) :
  vUv (here q) = Vec2 0.5 0.5 -> layers s u q = None.
Proof.
  intros Hc. unfold layers. rewrite Hc, lapLineIntensity_final_center.
  destruct (aspect_st u (vUv2 (here q))); [cbn | reflexivity].
  destruct (darkLineIntensity u s q); [cbn | reflexivity].
  destruct (foamIntensity_masked u s q); [cbn | reflexivity].
  destruct (staticGlowFactor _); reflexivity.
Qed.

(** C2.  At [uv = (0.5, 0.5)] the evaluation is not defined, whatever the
    other inputs: [normalize] is applied to the zero vector
    [st_orig - 0.5]. *)
Theorem main_undefined_at_center (u : Uniforms R) (uv2 : vec2 R)
    (nb na : Varyings R) :
  main u {| here := {| vUv := Vec2 0.5 0.5; vUv2 := uv2 |};
            beside := nb; above := na |} = None.
Proof.
  unfold main, main_with. rewrite layers_center; reflexivity.
Qed.


Lemma masterTime_frozen (u : Uniforms R) (t : R) :
  timeScale u = 0 -> masterTime (with_time u t) = 0.
Proof.
  intros Hz. unfold masterTime, with_time. cbn [time timeScale].
  rewrite Hz. rnorm. apply Rmult_0_r.
Qed.

Ltac unfold_layers :=
  unfold main, main_with, layers, darkLineIntensity, foamIntensity_masked,
    foamIntensity_base, fwidth, lineVisibilityMask, breakupMask,
    breakupMaskNoise, darkNoiseValue01, foamSimplexValue01, dark_final_st,
    foam_final_st, mainCurrentVector, foamCurrentVector,
    calculate_main_current, calculate_foam_current, lapLineIntensity_final,
    edgeDistortion, radialWaveIntensity_final, angleDistortion, radialMask,
    aspect_st.

(** C9.  With [timeScale = 0] the output does not depend on [time]. *)
Theorem frozen_time_scale (u : Uniforms R) (q : Quad R) (t1 t2 : R) :
  timeScale u = 0 ->
  main (with_time u t1) q = main (with_time u t2) q.
Proof.
  intros Hz.
  unfold_layers.
  rewrite !masterTime_frozen by assumption.
  reflexivity.
Qed.


Lemma calculate_band_intensity_range (fw n b0 b1 sh i : R) :
  calculate_band_intensity fw n b0 b1 sh = Some i -> 0 <= i <= 1.
Proof.
  unfold calculate_band_intensity. intros H. inv_bind H. inv_bind H.
  injection H as <-. rnorm. apply clamp_bounds; lra.
Qed.


Lemma foamIntensity_masked_shape (u : Uniforms R) (s : R) (q : Quad R) (f : R) :
  foamIntensity_masked u s q = Some f ->
  exists st m a,
    aspect_st u (vUv2 (here q)) = Some st /\
    breakupMask u st = Some m /\ 0 <= a /\
    foamIntensity_base u q = Some a /\
    forall s', foamIntensity_masked u s' q = Some (a * (1 - m * s')).
Proof.
  unfold foamIntensity_masked, lineVisibilityMask. intros H.
  bind_inv H as st Est. bind_inv H as vis Evis.
  bind_inv Evis as m Em. injection Evis as <-.
  bind_inv H as base Ebase. injection H as <-.
  assert (Hi : 0 <= base <= 1).
  { generalize Ebase. unfold foamIntensity_base. intros H.
    bind_inv H as st' Est'. bind_inv H as fw Efw.
    eapply calculate_band_intensity_range; eassumption. }
  exists st, m, base. repeat split; try assumption; try lra.
  intros s'. rewrite Est. cbn [bind]. rewrite Em. cbn [bind].
  rewrite Ebase. cbn [bind]. rnorm. reflexivity.
Qed.


(** C3.  The compositor: the total foam intensity is the clamped sum of
    the masked foam band, the lapping waves and the radial waves, only the
    foam band carrying the visibility mask; the colour is the clamped mix of
    the glowed base colour and the foam colour by that intensity. *)
Theorem compositor_formula (u : Uniforms R) (q : Quad R) (c : vec4 R) :
  main u q = Some c ->
  exists st m base dark glow lap radial,
    aspect_st u (vUv2 (here q)) = Some st /\
    breakupMask u st = Some m /\
    foamIntensity_base u q = Some base /\
    darkLineIntensity u breakupStrength q = Some dark /\
    staticGlowFactor (distToEdge (vUv (here q))) = Some glow /\
    lapLineIntensity_final u (vUv (here q)) = Some lap /\
    radialWaveIntensity_final u st = Some radial /\
    let lineVisibilityMask := 1 - m * breakupStrength in
    let foamIntensity_masked := base * lineVisibilityMask in
    let total := clamp (foamIntensity_masked + lap + radial) 0 1 in
    let L := {| L_darkLineIntensity := dark;
                L_foamIntensity_masked := foamIntensity_masked;
                L_staticGlowFactor := glow;
                L_lapLineIntensity_final := lap;
                L_radialWaveIntensity_final := radial |} in
    layers breakupStrength u q = Some L /\
    totalFoamIntensity L = total /\
    c = Vec4 (clamp (mix (vx3 (colorWithGlow L)) (vx3 colorFoamLine) total) 0 1)
             (clamp (mix (vy3 (colorWithGlow L)) (vy3 colorFoamLine) total) 0 1)
             (clamp (mix (vz3 (colorWithGlow L)) (vz3 colorFoamLine) total) 0 1)
             1 /\
    (forall s' L', layers s' u q = Some L' ->
       L_foamIntensity_masked L' = base * (1 - m * s') /\
       L_lapLineIntensity_final L' = lap).
Proof.
  unfold main, main_with. intros H. bind_inv H as L EL. injection H as <-.
  destruct (layers_inv _ _ _ _ EL) as (st & Hst & Hd & Hf & Hg & Hl & Hr).
  destruct (foamIntensity_masked_shape _ _ _ _ Hf)
    as (st' & m & base & Hst' & Hm & Hb & Hbase & Hfs).
  assert (st' = st) by congruence. subst st'.
  exists st, m, base, (L_darkLineIntensity L), (L_staticGlowFactor L),
    (L_lapLineIntensity_final L), (L_radialWaveIntensity_final L).
  repeat (split; [assumption |]).
  cbv zeta.
  assert (Hfm : L_foamIntensity_masked L = base * (1 - m * breakupStrength)).
  { rewrite Hfs in Hf. now injection Hf. }
  rewrite <- Hfm.
  assert (HL : {| L_darkLineIntensity := L_darkLineIntensity L;
                  L_foamIntensity_masked := L_foamIntensity_masked L;
                  L_staticGlowFactor := L_staticGlowFactor L;
                  L_lapLineIntensity_final := L_lapLineIntensity_final L;
                  L_radialWaveIntensity_final := L_radialWaveIntensity_final L |}
               = L) by (destruct L; reflexivity).
  rewrite HL.
  split; [assumption |]. split; [reflexivity |]. split.
  - unfold gl_FragColor, finalColor, mix3.
    cbn [map3 zip3 vx3 vy3 vz3]. f_equal. lra.
  - intros s' L' EL'.
    destruct (layers_inv _ _ _ _ EL') as (st2 & _ & _ & Hf' & _ & Hl' & _).
    rewrite Hfs in Hf'. split; congruence.
Qed.

Lemma staticGlowFactor_far (d : R) : 0.25 <= d -> staticGlowFactor d = Some 0.
Proof.
  intros Hd. destruct (staticGlowFactor_eq d) as (p & Hp & ->).
  replace (clamp (1 - 4 * d) 0 1) with 0.
  2:{ rewrite clamp_R. case_minmax; lra. }
  f_equal. unfold hermite. lra.
Qed.

Lemma staticGlowFactor_defined (d : R) : exists g, staticGlowFactor d = Some g.
Proof. destruct (staticGlowFactor_eq d) as (p & _ & ->). eauto. Qed.

Lemma length2_zero (v : vec2 R) : length2 v = 0 -> v = Vec2 0 0.
Proof.
  destruct v as [x y]. unfold length2, dot2. cbn [vx2 vy2]. intros H.
  apply sqrt_eq_0 in H; [| nra].
  assert (x = 0) by nra. assert (y = 0) by nra. subst. reflexivity.
Qed.

Lemma normalize2_defined (v : vec2 R) :
  v <> Vec2 0 0 -> exists n, normalize2 v = Some n.
Proof.
  intros Hv. unfold normalize2.
  destruct (Req_dec_T (length2 v) 0) as [Z | _]; [| eauto].
  exfalso. apply Hv. now apply length2_zero.
Qed.

Lemma wave_unit (x : R) : 0 <= sin x * 0.5 + 0.5 <= 1.
Proof. pose proof (SIN_bound x). lra. Qed.

Lemma lapLineIntensity_final_defined (u : Uniforms R) (st_orig : vec2 R) :
  st_orig <> Vec2 0.5 0.5 ->
  exists lap, lapLineIntensity_final u st_orig = Some lap.
Proof.
  intros Hc. unfold lapLineIntensity_final.
  destruct (normalize2_defined (map2 (fun c => c - 0.5) st_orig)) as [n ->].
  { destruct st_orig as [x y]. unfold map2. cbn [vx2 vy2]. intros E.
    apply Hc. injection E as Ex Ey. f_equal; lra. }
  cbn [bind].
  match goal with
  | |- context [glsl_pow ?w lapWavePeakSharpness] =>
      destruct (glsl_pow_unit w lapWavePeakSharpness) as (p & -> & _);
        [apply wave_unit | unfold lapWavePeakSharpness; lra |]
  end.
  cbn [bind]. unfold edgeWaveFadeDistance.
  rewrite smoothstep_eq by (rnorm; lra).
  cbn [bind]. eauto.
Qed.

Lemma glsl_atan_defined (y x : R) :
  Vec2 x y <> Vec2 0 0 -> exists a, glsl_atan y x = Some a.
Proof.
  intros Hv. unfold glsl_atan.
  destruct (Rlt_dec 0 x); [eauto |].
  destruct (Rlt_dec x 0); [destruct (Rle_dec 0 y); eauto |].
  destruct (Rlt_dec 0 y); [eauto |].
  destruct (Rlt_dec y 0); [eauto |].
  exfalso. apply Hv. f_equal; lra.
Qed.

Lemma radialMask_defined (u : Uniforms R) (st : vec2 R) :
  exists m, radialMask u st = Some m /\ 0 <= m <= 1.
Proof.
  unfold radialMask, radialWaveMaskThreshold, radialWaveMaskSmoothness.
  rewrite smoothstep_eq by (rnorm; lra).
  eexists. split; [reflexivity |].
  apply hermite_range, clamp_bounds; lra.
Qed.

Lemma radialWaveIntensity_final_defined (u : Uniforms R) (st : vec2 R) :
  st <> Vec2 0.7 0.5 ->
  exists r, radialWaveIntensity_final u st = Some r.
Proof.
  intros Hc. unfold radialWaveIntensity_final.
  destruct (glsl_atan_defined (vy2 (zip2 Rminus st (Vec2 0.7 0.5)))
              (vx2 (zip2 Rminus st (Vec2 0.7 0.5)))) as [a ->].
  { destruct st as [x y]. unfold zip2. cbn [vx2 vy2]. intros E.
    apply Hc. injection E as Ex Ey. f_equal; lra. }
  cbn [bind].
  match goal with
  | |- context [glsl_pow ?w radialWaveSharpness] =>
      destruct (glsl_pow_unit w radialWaveSharpness) as (p & -> & _);
        [apply wave_unit | unfold radialWaveSharpness; lra |]
  end.
  cbn [bind].
  destruct (radialMask_defined u st) as (m & -> & _).
  cbn [bind]. eauto.
Qed.

Lemma radialWaveIntensity_final_range (u : Uniforms R) (st : vec2 R) (r : R) :
  radialWaveIntensity_final u st = Some r -> 0 <= r <= 0.6.
Proof.
  unfold radialWaveIntensity_final. intros H.
  bind_inv H as a Ea. bind_inv H as lines El. bind_inv H as m Em.
  injection H as <-.
  match type of El with
  | glsl_pow ?w _ = _ =>
      destruct (glsl_pow_unit w radialWaveSharpness) as (p & Hp & Hp01);
        [apply wave_unit | unfold radialWaveSharpness; lra |]
  end.
  assert (lines = p) by congruence. subst p.
  destruct (radialMask_defined u st) as (m' & Hm' & Hm01).
  assert (m' = m) by congruence. subst m'.
  unfold radialWaveIntensity.
  assert (0 <= lines * m <= 1) by nra.
  rewrite clamp_R. case_minmax; lra.
Qed.

Lemma breakupMask_defined (u : Uniforms R) (st : vec2 R) :
  exists m, breakupMask u st = Some m /\ 0 <= m <= 1.
Proof.
  unfold breakupMask, breakupThreshold, breakupSmoothness.
  rewrite smoothstep_eq by (rnorm; lra).
  eexists. split; [reflexivity |].
  apply hermite_range, clamp_bounds; lra.
Qed.

Lemma darkLineIntensity_defined (u : Uniforms R) (s : R) (q : Quad R)
    (st : vec2 R) (fw : R) :
  aspect_st u (vUv2 (here q)) = Some st ->
  fwidth u (darkNoiseValue01 u) q = Some fw -> fw <> 0 ->
  exists d, darkLineIntensity u s q = Some d.
Proof.
  intros Hst Hfw Hne. unfold darkLineIntensity, lineVisibilityMask.
  rewrite Hst. cbn [bind].
  destruct (breakupMask_defined u st) as (m & -> & _). cbn [bind].
  rewrite Hfw. cbn [bind].
  unfold calculate_line_intensity, darkLineThreshold, darkLineSharpness.
  rewrite smoothstep_eq by (rnorm; lra).
  cbn [bind]. eauto.
Qed.

Lemma foamIntensity_masked_defined (u : Uniforms R) (s : R) (q : Quad R)
    (st : vec2 R) (fw : R) :
  aspect_st u (vUv2 (here q)) = Some st ->
  fwidth u (foamSimplexValue01 u) q = Some fw -> fw <> 0 ->
  exists f, foamIntensity_masked u s q = Some f.
Proof.
  intros Hst Hfw Hne.
  unfold foamIntensity_masked, lineVisibilityMask, foamIntensity_base.
  rewrite Hst. cbn [bind].
  destruct (breakupMask_defined u st) as (m & -> & _). cbn [bind].
  rewrite Hfw. cbn [bind].
  unfold calculate_band_intensity, foamBandStart, foamBandEnd, foamBandSharpness.
  rewrite !smoothstep_eq by (rnorm; lra).
  cbn [bind]. eauto.
Qed.

Lemma layers_defined (s : R) (u : Uniforms R) (q : Quad R) :
  well_defined u q -> exists L, layers s u q = Some L.
Proof.
  intros (st & fd & ff & Hst & Hfd & Hfd0 & Hff & Hff0 & Huv & Hc).
  unfold layers. rewrite Hst. cbn [bind].
  destruct (darkLineIntensity_defined u s q st fd Hst Hfd Hfd0) as [d ->].
  destruct (foamIntensity_masked_defined u s q st ff Hst Hff Hff0) as [f ->].
  destruct (staticGlowFactor_defined (distToEdge (vUv (here q)))) as [g ->].
  destruct (lapLineIntensity_final_defined u _ Huv) as [lap ->].
  destruct (radialWaveIntensity_final_defined u _ Hc) as [r ->].
  cbn [bind]. eauto.
Qed.


Lemma hermite_strict (t : R) : 0 < t < 1 -> 0 < hermite t < 1.
Proof.
  unfold hermite. intros [H0 H1]. split.
  - repeat apply Rmult_lt_0_compat; lra.
  - assert (0 < (1 - t) * (1 - t) * (1 + 2 * t))
      by (repeat apply Rmult_lt_0_compat; lra).
    lra.
Qed.

Lemma smoothstep_above (e0 e1 x : R) :
  e0 < e1 -> e1 <= x -> smoothstep e0 e1 x = Some 1.
Proof.
  intros He Hx. rewrite smoothstep_eq by lra. f_equal.
  replace (clamp ((x - e0) / (e1 - e0)) 0 1) with 1;
    [unfold hermite; lra |].
  assert (1 <= (x - e0) / (e1 - e0)).
  { apply Rmult_le_reg_r with (e1 - e0); [lra |].
    unfold Rdiv. rewrite Rmult_assoc, Rinv_l by lra. lra. }
  rewrite clamp_R. case_minmax; lra.
Qed.

Lemma smoothstep_below (e0 e1 x : R) :
  e0 < e1 -> x <= e0 -> smoothstep e0 e1 x = Some 0.
Proof.
  intros He Hx. rewrite smoothstep_eq by lra. f_equal.
  replace (clamp ((x - e0) / (e1 - e0)) 0 1) with 0;
    [unfold hermite; lra |].
  assert ((x - e0) / (e1 - e0) <= 0).
  { apply Rmult_le_reg_r with (e1 - e0); [lra |].
    unfold Rdiv. rewrite Rmult_assoc, Rinv_l by lra. lra. }
  rewrite clamp_R. case_minmax; lra.
Qed.

Lemma smoothstep_reversed_far (e0 x : R) :
  0 < e0 -> e0 <= x -> smoothstep e0 0 x = Some 0.
Proof.
  intros He Hx. rewrite smoothstep_eq by lra. f_equal.
  replace (clamp ((x - e0) / (0 - e0)) 0 1) with 0;
    [unfold hermite; lra |].
  assert ((x - e0) / (0 - e0) <= 0).
  { replace ((x - e0) / (0 - e0)) with (- ((x - e0) / e0)) by (field; lra).
    assert (0 <= (x - e0) / e0); [| lra].
    apply Rmult_le_reg_r with e0; [lra |].
    unfold Rdiv. rewrite Rmult_assoc, Rinv_l by lra. lra. }
  rewrite clamp_R. case_minmax; lra.
Qed.

Lemma smoothstep_inside (e0 e1 x : R) :
  e0 < e1 -> e0 < x < e1 ->
  exists s, smoothstep e0 e1 x = Some s /\ 0 < s < 1.
Proof.
  intros He [Hx0 Hx1]. rewrite smoothstep_eq by lra.
  eexists. split; [reflexivity |].
  apply hermite_strict.
  assert (0 < (x - e0) / (e1 - e0) < 1).
  { split.
    - apply Rdiv_lt_0_compat; lra.
    - apply Rmult_lt_reg_r with (e1 - e0); [lra |].
      unfold Rdiv. rewrite Rmult_assoc, Rinv_l by lra. lra. }
  rewrite clamp_R. case_minmax; lra.
Qed.

Lemma smoothstep_below_top (e0 e1 x : R) :
  e0 < e1 -> x < e1 ->
  exists s, smoothstep e0 e1 x = Some s /\ 0 <= s < 1.
Proof.
  intros He Hx. destruct (Rle_dec x e0) as [Hle | Hgt].
  - exists 0. split; [now apply smoothstep_below | lra].
  - destruct (smoothstep_inside e0 e1 x He) as (s & Hs & Hs01); [lra |].
    exists s. split; [assumption | lra].
Qed.

Lemma line_intensity_off (fw n t sh : R) :
  0 < fw * sh -> t + fw * sh <= n ->
  calculate_line_intensity fw n t sh = Some 0.
Proof.
  intros Hfw Hn. unfold calculate_line_intensity. rnorm.
  rewrite smoothstep_above by lra. cbn [bind]. f_equal.
  rewrite clamp_R. case_minmax; lra.
Qed.

Lemma line_intensity_on (fw n t sh : R) :
  0 < fw * sh -> n < t + fw * sh ->
  exists i, calculate_line_intensity fw n t sh = Some i /\ 0 < i <= 1.
Proof.
  intros Hfw Hn. unfold calculate_line_intensity. rnorm.
  destruct (smoothstep_below_top (t - fw * sh) (t + fw * sh) n)
    as (s & -> & Hs); [lra | lra |].
  cbn [bind]. eexists. split; [reflexivity |].
  rewrite clamp_R. case_minmax; lra.
Qed.

Lemma band_intensity_off (fw n b0 b1 sh : R) :
  0 < fw * sh -> b0 <= b1 -> n <= b0 - fw * sh ->
  calculate_band_intensity fw n b0 b1 sh = Some 0.
Proof.
  intros Hfw Hb Hn. unfold calculate_band_intensity. rnorm.
  rewrite !smoothstep_below by lra. cbn [bind]. f_equal.
  rewrite clamp_R. case_minmax; lra.
Qed.

Lemma normalize2_left (x : R) :
  x < 0 -> normalize2 (Vec2 x 0) = Some (Vec2 (-1) 0).
Proof.
  intros Hx. unfold normalize2, length2, dot2. cbn [vx2 vy2].
  replace (x * x + 0 * 0) with ((- x) * (- x)) by ring.
  rewrite sqrt_square by lra.
  destruct (Req_dec_T (- x) 0); [lra |].
  f_equal. f_equal; field; lra.
Qed.

Lemma Q2R_decimal (n : Z) (d : positive) : Q2R (n # d) = IZR n / IZR (Zpos d).
Proof. reflexivity. Qed.

Ltac q2r_ineq H :=
  first [apply Qlt_Rlt in H | apply Qle_Rle in H];
  rewrite ?Q2R_plus, ?Q2R_minus, ?Q2R_mult in H;
  rewrite ?Q2R_decimal in H.


Lemma darkLineIntensity_off (U : Uniforms R) (s : R) (Q' : Quad R)
    (ST : vec2 R) (fw : R) :
  aspect_st U (vUv2 (here Q')) = Some ST ->
  fwidth U (darkNoiseValue01 U) Q' = Some fw ->
  0 < fw -> 0.5 + fw * 1.5 <= darkNoiseValue01 U ST ->
  darkLineIntensity U s Q' = Some 0.
Proof.
  intros Hst Hfw Hpos Hd. unfold darkLineIntensity, lineVisibilityMask.
  rewrite Hst. cbn [bind].
  destruct (breakupMask_defined U ST) as (m & -> & _). cbn [bind].
  rewrite Hfw. cbn [bind].
  rewrite line_intensity_off.
  - cbn [bind]. f_equal. rnorm. ring.
  - unfold darkLineSharpness. rnorm. lra.
  - unfold darkLineThreshold, darkLineSharpness. rnorm. lra.
Qed.

Lemma darkLineIntensity_on (U : Uniforms R) (Q' : Quad R)
    (ST : vec2 R) (fw m : R) :
  aspect_st U (vUv2 (here Q')) = Some ST ->
  fwidth U (darkNoiseValue01 U) Q' = Some fw ->
  0 < fw -> darkNoiseValue01 U ST < 0.5 + fw * 1.5 ->
  breakupMask U ST = Some m -> m < 1 ->
  exists v, darkLineIntensity U breakupStrength Q' = Some v /\ 0 < v <= 1.
Proof.
  intros Hst Hfw Hpos Hd Hm Hm1. unfold darkLineIntensity, lineVisibilityMask.
  rewrite Hst. cbn [bind]. rewrite Hm. cbn [bind].
  rewrite Hfw. cbn [bind].
  destruct (line_intensity_on fw (darkNoiseValue01 U ST)
              darkLineThreshold darkLineSharpness) as (i & -> & Hi).
  - unfold darkLineSharpness. rnorm. lra.
  - unfold darkLineThreshold, darkLineSharpness. rnorm. lra.
  - cbn [bind]. eexists. split; [reflexivity |].
    pose proof (breakupMask_defined U ST) as (m' & Hm' & Hm01).
    assert (m' = m) by congruence. subst m'.
    unfold darkLineOpacity, breakupStrength. rnorm. nra.
Qed.

Lemma foamIntensity_masked_off (U : Uniforms R) (s : R) (Q' : Quad R)
    (ST : vec2 R) (fw : R) :
  aspect_st U (vUv2 (here Q')) = Some ST ->
  fwidth U (foamSimplexValue01 U) Q' = Some fw ->
  0 < fw -> foamSimplexValue01 U ST <= 0.58 - fw * 5 ->
  foamIntensity_masked U s Q' = Some 0.
Proof.
  intros Hst Hfw Hpos Hf.
  unfold foamIntensity_masked, lineVisibilityMask, foamIntensity_base.
  rewrite Hst. cbn [bind].
  destruct (breakupMask_defined U ST) as (m & -> & _). cbn [bind].
  rewrite Hfw. cbn [bind].
  rewrite band_intensity_off.
  - cbn [bind]. f_equal. rnorm. ring.
  - unfold foamBandSharpness. rnorm. lra.
  - unfold foamBandStart, foamBandEnd. rnorm. lra.
  - unfold foamBandStart, foamBandSharpness. rnorm. lra.
Qed.

Lemma breakupMask_partial (U : Uniforms R) (ST : vec2 R) :
  0.625 < breakupMaskNoise U ST < 0.675 ->
  exists m, breakupMask U ST = Some m /\ 0 < m < 1.
Proof.
  intros Hb. unfold breakupMask, breakupThreshold, breakupSmoothness.
  apply smoothstep_inside; rnorm; lra.
Qed.

Lemma lapLineIntensity_final_off (U : Uniforms R) (x : R) :
  x < 0.5 ->
  0.08 <= distToEdge (Vec2 x 0.5) + vx2 (edgeDistortion U (Vec2 x 0.5)) * 0.5 ->
  lapLineIntensity_final U (Vec2 x 0.5) = Some 0.
Proof.
  intros Hx Hd. unfold lapLineIntensity_final.
  cbn [map2 vx2 vy2]. unfold map2. cbn [vx2 vy2].
  replace (0.5 - 0.5) with 0 by lra.
  rewrite normalize2_left by lra. cbn [bind].
  match goal with
  | |- context [glsl_pow ?w lapWavePeakSharpness] =>
      destruct (glsl_pow_unit w lapWavePeakSharpness) as (p & -> & Hp);
        [apply wave_unit | unfold lapWavePeakSharpness; lra |]
  end.
  cbn [bind].
  set (dd := gmax _ _).
  assert (Hdd : 0.08 <= dd).
  { subst dd. rewrite gmax_R. unfold dot2. cbn [vx2 vy2].
    unfold Rmax. destruct (Rle_dec _ _); lra. }
  unfold edgeWaveFadeDistance. rnorm.
  rewrite smoothstep_reversed_far by lra.
  cbn [bind]. f_equal. rewrite clamp_R. case_minmax; lra.
Qed.

(** generic Q -> R transport *)
Lemma fwidth_value (u : Uniforms Q) (p : vec2 Q -> Q) (q : Quad Q)
    (st st_dx st_dy : vec2 Q) :
  aspect_st u (vUv2 (here q)) = Some st ->
  aspect_st u (vUv2 (beside q)) = Some st_dx ->
  aspect_st u (vUv2 (above q)) = Some st_dy ->
  fwidth u p q = Some (fwidth_of (p st) (p st_dx) (p st_dy)).
Proof. intros H1 H2 H3. unfold fwidth. rewrite H1, H2, H3. reflexivity. Qed.

Lemma embedded_aspect (u : Uniforms Q) (q : Quad Q) (st : vec2 Q) :
  aspect_st u (vUv2 (here q)) = Some st ->
  aspect_st (embed_uniforms u) (vUv2 (here (embed_quad q)))
  = Some (map2 Q2R st).
Proof.
  intros Hst. cbn [embed_quad embed_varyings here vUv2].
  rewrite Q2R_aspect_st, Hst. reflexivity.
Qed.

Lemma embedded_dark_fwidth (u : Uniforms Q) (q : Quad Q)
    (st st_dx st_dy : vec2 Q) :
  aspect_st u (vUv2 (here q)) = Some st ->
  aspect_st u (vUv2 (beside q)) = Some st_dx ->
  aspect_st u (vUv2 (above q)) = Some st_dy ->
  fwidth (embed_uniforms u) (darkNoiseValue01 (embed_uniforms u)) (embed_quad q)
  = Some (Q2R (dark_fw u st st_dx st_dy)).
Proof.
  intros H1 H2 H3.
  pose proof (Q2R_fwidth u (darkNoiseValue01 u)
                (darkNoiseValue01 (embed_uniforms u)) q
                (Q2R_darkNoiseValue01 u)) as E.
  rewrite E.
  rewrite (fwidth_value u (darkNoiseValue01 u) q st st_dx st_dy H1 H2 H3).
  unfold dark_fw. reflexivity.
Qed.

Lemma embedded_foam_fwidth (u : Uniforms Q) (q : Quad Q)
    (st st_dx st_dy : vec2 Q) :
  aspect_st u (vUv2 (here q)) = Some st ->
  aspect_st u (vUv2 (beside q)) = Some st_dx ->
  aspect_st u (vUv2 (above q)) = Some st_dy ->
  fwidth (embed_uniforms u) (foamSimplexValue01 (embed_uniforms u)) (embed_quad q)
  = Some (Q2R (foam_fw u st st_dx st_dy)).
Proof.
  intros H1 H2 H3.
  pose proof (Q2R_fwidth u (foamSimplexValue01 u)
                (foamSimplexValue01 (embed_uniforms u)) q
                (Q2R_foamSimplexValue01 u)) as E.
  rewrite E.
  rewrite (fwidth_value u (foamSimplexValue01 u) q st st_dx st_dy H1 H2 H3).
  unfold foam_fw. reflexivity.
Qed.

Lemma embedded_dark_off (u : Uniforms Q) (q : Quad Q)
    (st st_dx st_dy : vec2 Q) (s : R) :
  aspect_st u (vUv2 (here q)) = Some st ->
  aspect_st u (vUv2 (beside q)) = Some st_dx ->
  aspect_st u (vUv2 (above q)) = Some st_dy ->
  dark_is_off u st st_dx st_dy ->
  darkLineIntensity (embed_uniforms u) s (embed_quad q) = Some 0.
Proof.
  intros H1 H2 H3 [Hfw Hd].
  apply (darkLineIntensity_off _ s _ (map2 Q2R st) (Q2R (dark_fw u st st_dx st_dy))).
  - now apply embedded_aspect.
  - now apply embedded_dark_fwidth.
  - q2r_ineq Hfw. lra.
  - rewrite Q2R_darkNoiseValue01. q2r_ineq Hd. lra.
Qed.

Lemma embedded_dark_on (u : Uniforms Q) (q : Quad Q)
    (st st_dx st_dy : vec2 Q) :
  aspect_st u (vUv2 (here q)) = Some st ->
  aspect_st u (vUv2 (beside q)) = Some st_dx ->
  aspect_st u (vUv2 (above q)) = Some st_dy ->
  dark_is_on u st st_dx st_dy ->
  mask_is_partial u st ->
  exists v, darkLineIntensity (embed_uniforms u) breakupStrength (embed_quad q)
            = Some v /\ 0 < v <= 1.
Proof.
  intros H1 H2 H3 [Hfw Hd] [Hb0 Hb1].
  destruct (breakupMask_partial (embed_uniforms u) (map2 Q2R st))
    as (m & Hm & Hm01).
  { rewrite Q2R_breakupMaskNoise. q2r_ineq Hb0. q2r_ineq Hb1. lra. }
  apply (darkLineIntensity_on _ _ (map2 Q2R st)
           (Q2R (dark_fw u st st_dx st_dy)) m).
  - now apply embedded_aspect.
  - now apply embedded_dark_fwidth.
  - q2r_ineq Hfw. lra.
  - rewrite Q2R_darkNoiseValue01. q2r_ineq Hd. lra.
  - exact Hm.
  - lra.
Qed.

Lemma embedded_foam_off (u : Uniforms Q) (q : Quad Q)
    (st st_dx st_dy : vec2 Q) (s : R) :
  aspect_st u (vUv2 (here q)) = Some st ->
  aspect_st u (vUv2 (beside q)) = Some st_dx ->
  aspect_st u (vUv2 (above q)) = Some st_dy ->
  foam_is_off u st st_dx st_dy ->
  foamIntensity_masked (embed_uniforms u) s (embed_quad q) = Some 0.
Proof.
  intros H1 H2 H3 [Hfw Hf].
  apply (foamIntensity_masked_off _ s _ (map2 Q2R st)
           (Q2R (foam_fw u st st_dx st_dy))).
  - now apply embedded_aspect.
  - now apply embedded_foam_fwidth.
  - q2r_ineq Hfw. lra.
  - rewrite Q2R_foamSimplexValue01. q2r_ineq Hf. lra.
Qed.

Lemma embedded_lap_off (u : Uniforms Q) (a : Q) :
  lap_is_off u a ->
  lapLineIntensity_final (embed_uniforms u) (map2 Q2R (Vec2 a (1 # 2)%Q))
  = Some 0.
Proof.
  intros [Ha Hd].
  assert (E : map2 Q2R (Vec2 a (1 # 2)%Q) = Vec2 (Q2R a) 0.5).
  { unfold map2. cbn [vx2 vy2]. f_equal. rewrite Q2R_decimal. lra. }
  rewrite E. apply lapLineIntensity_final_off.
  - q2r_ineq Ha. lra.
  - rewrite <- E. rewrite Q2R_edgeDistortion, Q2R_distToEdge.
    unfold map2 at 1. cbn [vx2 vy2].
    q2r_ineq Hd. lra.
Qed.

Local Open Scope Q_scope.

Lemma sample_aspects :
  aspect_st sample_uniforms (vUv2 (here fine_quad)) = Some st_here /\
  aspect_st sample_uniforms (vUv2 (beside fine_quad)) = Some st_fine_dx /\
  aspect_st sample_uniforms (vUv2 (above fine_quad)) = Some st_fine_dy /\
  aspect_st sample_uniforms (vUv2 (here coarse_quad)) = Some st_here /\
  aspect_st sample_uniforms (vUv2 (beside coarse_quad)) = Some st_coarse_dx /\
  aspect_st sample_uniforms (vUv2 (above coarse_quad)) = Some st_coarse_dy.
Proof. vm_compute. repeat split; reflexivity. Qed.

Lemma gltb_Q_true (a b : Q) : gltb a b = true -> a < b.
Proof. apply Qltb_spec. Qed.

Lemma gleb_Q_true (a b : Q) : gleb a b = true -> a <= b.
Proof.
  unfold gleb. intros H. apply negb_true_iff in H.
  apply Qnot_lt_le. intros L. apply Qltb_spec in L. glnum. congruence.
Qed.

Lemma sample_check_sound
    (d d_fx d_fy d_cx d_cy f f_fx f_fy f_cx f_cy b e c : Q) :
  sample_check d d_fx d_fy d_cx d_cy f f_fx f_fy f_cx f_cy b e c = true ->
  (0 < fwidth_of d d_fx d_fy /\
   (1 # 2) + fwidth_of d d_fx d_fy * (15 # 10) <= d) /\
  (0 < fwidth_of f f_fx f_fy /\
   f <= (58 # 100) - fwidth_of f f_fx f_fy * 5) /\
  (0 < fwidth_of d d_cx d_cy /\
   d < (1 # 2) + fwidth_of d d_cx d_cy * (15 # 10)) /\
  (0 < fwidth_of f f_cx f_cy /\
   f <= (58 # 100) - fwidth_of f f_cx f_cy * 5) /\
  (625 # 1000 < b /\ b < 675 # 1000) /\
  8 # 100 <= c + e * (1 # 2).
Proof.
  unfold sample_check. intros H.
  repeat (apply andb_prop in H; let H' := fresh "H" in destruct H as [H H']).
  repeat match goal with
         | H : gltb _ _ = true |- _ => apply gltb_Q_true in H
         | H : gleb _ _ = true |- _ => apply gleb_Q_true in H
         end.
  glnum.
  repeat match goal with
         | H : context [Qred _] |- _ => rewrite Qred_correct in H
         end.
  repeat split; assumption.
Qed.

Lemma sample_test_eq {A} `{GLNum A} (u : Uniforms A)
    (st fx fy cx cy o : vec2 A) :
  sample_test u st fx fy cx cy o
  = sample_check
      (darkNoiseValue01 u st) (darkNoiseValue01 u fx) (darkNoiseValue01 u fy)
      (darkNoiseValue01 u cx) (darkNoiseValue01 u cy)
      (foamSimplexValue01 u st) (foamSimplexValue01 u fx)
      (foamSimplexValue01 u fy) (foamSimplexValue01 u cx)
      (foamSimplexValue01 u cy)
      (breakupMaskNoise u st) (vx2 (edgeDistortion u o)) (distToEdge o).
Proof. reflexivity. Qed.

(** The sample inputs over machine words stand for the rational ones. *)
Lemma big_inputs :
  map_uniforms bigQ_value big_uniforms = sample_uniforms /\
  map2 bigQ_value (big st_here) = st_here /\
  map2 bigQ_value (big st_fine_dx) = st_fine_dx /\
  map2 bigQ_value (big st_fine_dy) = st_fine_dy /\
  map2 bigQ_value (big st_coarse_dx) = st_coarse_dx /\
  map2 bigQ_value (big st_coarse_dy) = st_coarse_dy /\
  map2 bigQ_value (big (Vec2 (3 # 10) (1 # 2))) = Vec2 (3 # 10) (1 # 2).
Proof. vm_compute. repeat split; reflexivity. Qed.

(** The comparisons, computed over machine words. *)
Lemma big_sample_test :
  sample_test big_uniforms (big st_here) (big st_fine_dx) (big st_fine_dy)
    (big st_coarse_dx) (big st_coarse_dy) (big (Vec2 (3 # 10) (1 # 2)))
  = true.
Proof. vm_cast_no_check (eq_refl true). Qed.

Lemma sample_test_ok :
  sample_test sample_uniforms st_here st_fine_dx st_fine_dy
    st_coarse_dx st_coarse_dy (Vec2 (3 # 10) (1 # 2)) = true.
Proof.
  destruct big_inputs as (Eu & E1 & E2 & E3 & E4 & E5 & E6).
  rewrite <- Eu, <- E1, <- E2, <- E3, <- E4, <- E5, <- E6.
  rewrite (hom_sample_test bigQ_value).
  exact big_sample_test.
Qed.

Lemma sample_facts :
  dark_is_off sample_uniforms st_here st_fine_dx st_fine_dy /\
  foam_is_off sample_uniforms st_here st_fine_dx st_fine_dy /\
  dark_is_on sample_uniforms st_here st_coarse_dx st_coarse_dy /\
  foam_is_off sample_uniforms st_here st_coarse_dx st_coarse_dy /\
  mask_is_partial sample_uniforms st_here /\
  lap_is_off sample_uniforms (3 # 10).
Proof.
  pose proof sample_test_ok as H.
  rewrite sample_test_eq in H.
  apply sample_check_sound in H.
  destruct H as (Hdf & Hff & Hdc & Hfc & Hb & He).
  unfold dark_is_off, dark_is_on, foam_is_off, mask_is_partial, lap_is_off,
    dark_fw, foam_fw.
  split; [exact Hdf |]. split; [exact Hff |]. split; [exact Hdc |].
  split; [exact Hfc |]. split; [exact Hb |].
  split; [reflexivity | exact He].
Qed.

Local Open Scope R_scope.


Lemma sample_glow :
  staticGlowFactor (distToEdge (vUv (here fine_R))) = Some 0.
Proof.
  apply staticGlowFactor_far.
  change (vUv (here fine_R)) with (map2 Q2R (Vec2 (3 # 10) (1 # 2))%Q).
  rewrite Q2R_distToEdge.
  replace (distToEdge (Vec2 (3 # 10) (1 # 2))%Q) with (3 # 10)%Q
    by (vm_compute; reflexivity).
  rewrite Q2R_decimal. lra.
Qed.

Lemma sample_radial :
  exists r, radialWaveIntensity_final sample_U (map2 Q2R st_here) = Some r
            /\ 0 <= r <= 0.6.
Proof.
  destruct (radialWaveIntensity_final_defined sample_U (map2 Q2R st_here))
    as [r Hr].
  { unfold st_here, map2. cbn [vx2 vy2]. intros E. injection E as E1 E2.
    rewrite Q2R_decimal in E2. lra. }
  exists r. split; [exact Hr |].
  exact (radialWaveIntensity_final_range _ _ _ Hr).
Qed.

(** The layers of the sample fragment under the two quads. *)
Lemma sample_layers :
  exists r v, 0 <= r <= 0.6 /\ 0 < v <= 1 /\
    layers breakupStrength sample_U fine_R
    = Some {| L_darkLineIntensity := 0; L_foamIntensity_masked := 0;
              L_staticGlowFactor := 0; L_lapLineIntensity_final := 0;
              L_radialWaveIntensity_final := r |} /\
    layers breakupStrength sample_U coarse_R
    = Some {| L_darkLineIntensity := v; L_foamIntensity_masked := 0;
              L_staticGlowFactor := 0; L_lapLineIntensity_final := 0;
              L_radialWaveIntensity_final := r |}.
Proof.
  destruct sample_aspects as (Ah & Afx & Afy & Ach & Acx & Acy).
  destruct sample_facts as (Hdf & Hff & Hdc & Hfc & Hb & He).
  destruct sample_radial as (r & Hr & Hr01).
  destruct (embedded_dark_on sample_uniforms coarse_quad
              st_here st_coarse_dx st_coarse_dy Ach Acx Acy Hdc Hb)
    as (v & Hv & Hv01).
  pose proof (embedded_dark_off sample_uniforms fine_quad
                st_here st_fine_dx st_fine_dy breakupStrength
                Ah Afx Afy Hdf) as Hd0.
  pose proof (embedded_foam_off sample_uniforms fine_quad
                st_here st_fine_dx st_fine_dy breakupStrength
                Ah Afx Afy Hff) as Hf0.
  pose proof (embedded_foam_off sample_uniforms coarse_quad
                st_here st_coarse_dx st_coarse_dy breakupStrength
                Ach Acx Acy Hfc) as Hf0c.
  pose proof (embedded_aspect sample_uniforms fine_quad st_here Ah) as Af.
  pose proof (embedded_aspect sample_uniforms coarse_quad st_here Ach) as Ac.
  pose proof (embedded_lap_off sample_uniforms (3 # 10)%Q He) as Hl.
  pose proof sample_glow as Hg.
  exists r, v. split; [exact Hr01 |]. split; [exact Hv01 |].
  fold sample_U in Hv, Hd0, Hf0, Hf0c, Af, Ac, Hl.
  fold fine_R in Hd0, Hf0, Af. fold coarse_R in Hv, Hf0c, Ac.
  split.
  - unfold layers. rewrite Af. cbn [bind]. rewrite Hd0. cbn [bind].
    rewrite Hf0. cbn [bind]. rewrite Hg. cbn [bind].
    change (vUv (here fine_R)) with (map2 Q2R (Vec2 (3 # 10) (1 # 2))%Q).
    rewrite Hl. cbn [bind]. rewrite Hr. reflexivity.
  - unfold layers. rewrite Ac. cbn [bind]. rewrite Hv. cbn [bind].
    rewrite Hf0c. cbn [bind].
    change (vUv (here coarse_R)) with (map2 Q2R (Vec2 (3 # 10) (1 # 2))%Q).
    change (distToEdge (map2 Q2R (Vec2 (3 # 10) (1 # 2))%Q))
      with (distToEdge (vUv (here fine_R))).
    rewrite Hg. cbn [bind]. rewrite Hl. cbn [bind]. rewrite Hr. reflexivity.
Qed.



(** * The claims at the sample inputs *)

Lemma sample_main : exists c, main sample_U coarse_R = Some c.
Proof.
  destruct sample_layers as (r & v & _ & _ & _ & Lc).
  unfold main, main_with. rewrite Lc. cbn [bind]. eauto.
Qed.


Lemma output_channels_at_least_dark_witness :
  exists c, main sample_U coarse_R = Some c /\
    0.12 <= vx4 c /\ 0.12 <= vy4 c /\ 0.12 <= vz4 c.
Proof.
  destruct sample_main as [c Hc]. exists c. split; [exact Hc |].
  destruct (output_channels_at_least_dark sample_U coarse_R c Hc)
    as (L & _ & H).
  cbv zeta in H. destruct H as (_ & _ & _ & _ & H). exact H.
Defined.

Lemma compositor_formula_witness :
  exists c L, main sample_U coarse_R = Some c /\
    layers breakupStrength sample_U coarse_R = Some L /\
    vx4 c = clamp (mix (vx3 (colorWithGlow L)) (vx3 colorFoamLine)
                       (totalFoamIntensity L)) 0 1.
Proof.
  destruct sample_main as [c Hc].
  destruct (compositor_formula sample_U coarse_R c Hc)
    as (st & m & base & dark & glow & lap & radial & _ & _ & _ & _ & _ & _ & _
        & H).
  cbv zeta in H. destruct H as (HL & HT & Hcol & _).
  exists c. eexists. split; [exact Hc |]. split; [exact HL |].
  rewrite Hcol, HT. reflexivity.
Defined.

Lemma static_glow_falloff_witness :
  staticGlowFactor 0.3 = Some 0 /\
  exists g1 g2, staticGlowFactor 0.1 = Some g1 /\
                staticGlowFactor 0.2 = Some g2 /\ g2 <= g1.
Proof.
  destruct static_glow_falloff as (_ & Hfar & Hmono).
  split; [apply Hfar; lra | apply Hmono; lra].
Defined.

Lemma frozen_time_scale_witness :
  timeScale frozen_uniforms = 0 /\
  main (with_time frozen_uniforms 1) fine_R
  = main (with_time frozen_uniforms 2) fine_R.
Proof.
  split; [reflexivity |].
  apply (frozen_time_scale frozen_uniforms fine_R 1 2). reflexivity.
Defined.




(** C6.  [snoise] leaves the interval [-1, 1]: at [(2.4, 2.4, 3.4)] it
    exceeds [1], at [(-0.9, 0.1, 0.1)] it is below [-1]. *)
Theorem snoise_leaves_unit_interval :
  1 < snoise (Vec3 2.4 2.4 3.4) /\ snoise (Vec3 (-0.9) 0.1 0.1) < -1.
Proof.
  split.
  - replace (Vec3 2.4 2.4 3.4)
      with (map3 Q2R (Vec3 (24 # 10) (24 # 10) (34 # 10))%Q)
      by (unfold map3; cbn [vx3 vy3 vz3]; rewrite !Q2R_decimal; f_equal; lra).
    rewrite <- Q2R_snoise.
    assert (Hq : (1 < snoise (Vec3 (24 # 10) (24 # 10) (34 # 10)))%Q)
      by (vm_compute; reflexivity).
    apply Qlt_Rlt in Hq. rewrite Q2R_decimal in Hq. lra.
  - replace (Vec3 (-0.9) 0.1 0.1)
      with (map3 Q2R (Vec3 (-9 # 10) (1 # 10) (1 # 10))%Q)
      by (unfold map3; cbn [vx3 vy3 vz3]; rewrite !Q2R_decimal; f_equal; lra).
    rewrite <- Q2R_snoise.
    assert (Hq : (snoise (Vec3 (-9 # 10) (1 # 10) (1 # 10)) < -1)%Q)
      by (vm_compute; reflexivity).
    apply Qlt_Rlt in Hq. rewrite (Q2R_decimal (-1) 1) in Hq. lra.
Qed.

(** * Further properties of the shader *)


Lemma fract_range (x : R) : 0 <= fract x < 1.
Proof. unfold fract. pose proof (Zfloor_bound x). lra. Qed.

Lemma mod289_R (x : R) : mod289 x = x - IZR (Zfloor (x / 289)) * 289.
Proof.
  unfold mod289. rnorm.
  replace (x * (1 * / 289)) with (x / 289) by lra. reflexivity.
Qed.

(** X1.  [mod289] (lines 24-25) reduces a real number into [0, 289) and
    changes it by a multiple of 289. *)
Theorem mod289_range (x : R) :
  0 <= mod289 x < 289 /\ exists k : Z, x = mod289 x + 289 * IZR k.
Proof.
  rewrite mod289_R. split.
  - pose proof (Zfloor_bound (x / 289)). lra.
  - exists (Zfloor (x / 289)). ring.
Qed.

Lemma mod289_integer (n : Z) : mod289 (IZR n) = IZR (n mod 289).
Proof.
  rewrite mod289_R.
  assert (E : Zfloor (IZR n / 289) = (n / 289)%Z).
  { apply Zfloor_eq.
    pose proof (Z.div_mod n 289 ltac:(lia)) as D.
    pose proof (Z.mod_pos_bound n 289 ltac:(lia)) as B.
    assert (Dr : IZR n = 289 * IZR (n / 289) + IZR (n mod 289)).
    { rewrite <- mult_IZR, <- plus_IZR. now f_equal. }
    assert (0 <= IZR (n mod 289) < 289).
    { split; [apply IZR_le | apply IZR_lt]; lia. }
    lra. }
  rewrite E.
  pose proof (Z.div_mod n 289 ltac:(lia)) as D.
  assert (Dr : IZR n = 289 * IZR (n / 289) + IZR (n mod 289)).
  { rewrite <- mult_IZR, <- plus_IZR. now f_equal. }
  lra.
Qed.

Lemma permute_integer (n : Z) : permute (IZR n) = IZR (permute_index n).
Proof.
  unfold permute, permute_index. rnorm.
  rewrite <- (mult_IZR n 34), <- (plus_IZR _ 1), <- mult_IZR.
  apply mod289_integer.
Qed.

Lemma permute_index_injective (a b : Z) :
  (0 <= a < 289)%Z -> (0 <= b < 289)%Z ->
  permute_index a = permute_index b -> a = b.
Proof.
  unfold permute_index. intros Ha Hb E.
  assert (D : (289 | (34 * (a + b) + 1) * (a - b))%Z).
  { replace ((34 * (a + b) + 1) * (a - b))%Z
      with ((a * 34 + 1) * a - (b * 34 + 1) * b)%Z by ring.
    apply Z.mod_divide; [lia |].
    rewrite Zminus_mod, E, Z.sub_diag. reflexivity. }
  apply Z.gauss in D.
  - destruct D as [k Hk]. nia.
  - apply Z.bezout_1_gcd.
    exists (4 * (a + b) * (a + b))%Z, (1 - 34 * (a + b))%Z. ring.
Qed.

(** X2.  [permute] (line 26) maps the lattice indices 0..288 into
    themselves, and no two of them to the same index: it permutes them. *)
Theorem permute_is_permutation (a b : Z) :
  (0 <= a < 289)%Z -> (0 <= b < 289)%Z ->
  (exists c, (0 <= c < 289)%Z /\ permute (IZR a) = IZR c) /\
  (permute (IZR a) = permute (IZR b) -> a = b).
Proof.
  intros Ha Hb. split.
  - exists (permute_index a). split; [| apply permute_integer].
    unfold permute_index. apply Z.mod_pos_bound. lia.
  - rewrite !permute_integer. intros E. apply eq_IZR in E.
    now apply permute_index_injective.
Qed.

Lemma permute_is_permutation_witness :
  (exists c, (0 <= c < 289)%Z /\ permute (IZR 1) = IZR c) /\
  (permute (IZR 1) = permute (IZR 2) -> 1%Z = 2%Z).
Proof. apply (permute_is_permutation 1 2); lia. Defined.

Lemma hash3_bounds (p : vec3 R) :
  -1 <= vx3 (hash3 p) < 1 /\ -1 <= vy3 (hash3 p) < 1 /\ -1 <= vz3 (hash3 p) < 1.
Proof.
  unfold hash3. cbv zeta. unfold map3. cbn [vx3 vy3 vz3].
  repeat split;
    match goal with
    | |- context [fract ?x] => pose proof (fract_range x)
    end; lra.
Qed.

(** X3.  Each component of [hash3] (lines 52-55) lies in [-1, 1). *)
Theorem hash3_range (p : vec3 R) :
  -1 <= vx3 (hash3 p) < 1 /\ -1 <= vy3 (hash3 p) < 1 /\ -1 <= vz3 (hash3 p) < 1.
Proof. apply hash3_bounds. Qed.

(** The loop of [worley] keeps the two smallest of the distances it meets. *)
Lemma keep_two_smallest_step (a0 b0 x : R) :
  a0 <= b0 ->
  exists a1 b1, keep_two_smallest (Vec2 a0 b0) x = Vec2 a1 b1 /\
    a1 <= b1 /\ a1 <= a0 /\ a1 <= x /\ b1 <= b0 /\ b1 <= Rmax a0 x /\
    a1 = Rmin a0 x.
Proof.
  intros Hab. unfold keep_two_smallest. cbn [vx2 vy2].
  unfold Rmax, Rmin.
  destruct (Rlt_dec x a0); [| destruct (Rlt_dec x b0)];
    eexists; eexists; (split; [reflexivity |]);
    destruct (Rle_dec a0 x); lra.
Qed.

Lemma keep_two_smallest_fold (ds : list R) (a0 b0 : R) :
  a0 <= b0 ->
  exists a b, fold_left keep_two_smallest ds (Vec2 a0 b0) = Vec2 a b /\
    a <= b /\ a <= a0 /\ b <= b0 /\
    (forall x, In x ds -> a <= x /\ b <= Rmax a0 x).
Proof.
  revert a0 b0. induction ds as [| x ds IH]; intros a0 b0 Hab.
  - exists a0, b0. cbn. repeat split; try lra; contradiction.
  - cbn [fold_left].
    destruct (keep_two_smallest_step a0 b0 x Hab)
      as (a1 & b1 & -> & H1 & H2 & H3 & H4 & H5 & _).
    destruct (IH a1 b1 H1) as (a & b & E & G1 & G2 & G3 & G4).
    exists a, b. split; [exact E |].
    split; [lra |]. split; [lra |]. split; [lra |].
    intros y [<- | Hin].
    + split; lra.
    + destruct (G4 y Hin) as [Ga Gb]. split; [exact Ga |].
      revert Gb. unfold Rmax.
      destruct (Rle_dec a1 y), (Rle_dec a0 y); lra.
Qed.

Lemma fold_left_map_arg {X Y Z'} (f : X -> Z' -> X) (g : Y -> Z')
    (l : list Y) (i : X) :
  fold_left (fun a y => f a (g y)) l i = fold_left f (List.map g l) i.
Proof. revert i. induction l; intros i; cbn; [reflexivity | apply IHl]. Qed.

(** Two distances met one after the other bound the second smallest. *)
Lemma keep_two_smallest_pair (l1 l2 : list R) (x y m : R) :
  0 <= m -> In y l2 ->
  exists a b,
    fold_left keep_two_smallest (l1 ++ x :: l2) (Vec2 m m) = Vec2 a b /\
    a <= b /\ a <= x /\ b <= Rmax x y.
Proof.
  intros Hm Hy.
  destruct (keep_two_smallest_fold (l1 ++ [x]) m m (Rle_refl m))
    as (a1 & b1 & E1 & G1 & _ & _ & G4).
  destruct (keep_two_smallest_fold l2 a1 b1 G1)
    as (a & b & E2 & H1 & H2 & _ & H4).
  exists a, b.
  replace (l1 ++ x :: l2) with ((l1 ++ [x]) ++ l2)
    by (rewrite <- app_assoc; reflexivity).
  rewrite fold_left_app, E1, E2.
  destruct (G4 x) as [Gx _]; [apply in_or_app; right; now left |].
  destruct (H4 y Hy) as [_ Hb].
  split; [reflexivity |]. split; [exact H1 |]. split; [lra |].
  revert Hb. unfold Rmax. destruct (Rle_dec a1 y), (Rle_dec x y); lra.
Qed.

Lemma keep_two_smallest_nonneg (ds : list R) (a0 b0 : R) :
  0 <= a0 -> 0 <= b0 -> (forall x, In x ds -> 0 <= x) ->
  0 <= vx2 (fold_left keep_two_smallest ds (Vec2 a0 b0)).
Proof.
  revert a0 b0. induction ds as [| x ds IH]; intros a0 b0 Ha Hb Hall.
  - cbn. exact Ha.
  - cbn [fold_left]. unfold keep_two_smallest at 2. cbn [vx2 vy2].
    assert (0 <= x) by (apply Hall; now left).
    assert (Hall' : forall y, In y ds -> 0 <= y)
      by (intros y Hy; apply Hall; now right).
    destruct (Rlt_dec x a0); [| destruct (Rlt_dec x b0)];
      apply IH; assumption.
Qed.

Lemma feature_dist_sq_nonneg (p ip dp : vec3 R) : 0 <= feature_dist_sq p ip dp.
Proof.
  unfold feature_dist_sq. cbv zeta. unfold dot3. rnorm.
  match goal with
  | |- 0 <= ?a * ?a + ?b * ?b + ?c * ?c => nra
  end.
Qed.

Lemma feature_dist_sq_near (p ip : vec3 R) (i j k : R) :
  Rabs i <= 1 -> Rabs j <= 1 -> Rabs k <= 1 ->
  feature_dist_sq p ip (Vec3 i j k)
  < (Rabs i + 1) * (Rabs i + 1) + (Rabs j + 1) * (Rabs j + 1)
    + (Rabs k + 1) * (Rabs k + 1).
Proof.
  intros Hi Hj Hk.
  unfold feature_dist_sq. cbv zeta.
  destruct (hash3_bounds (add3 ip (Vec3 i j k))) as (Hx & Hy & Hz).
  destruct p as [px py pz].
  pose proof (fract_range px). pose proof (fract_range py).
  pose proof (fract_range pz).
  revert Hx Hy Hz. generalize (hash3 (add3 ip (Vec3 i j k))).
  intros [ox oy oz]. cbn [vx3 vy3 vz3]. intros Hx Hy Hz.
  unfold dot3, sub3, add3, adds3, zip3, map3. cbn [vx3 vy3 vz3]. rnorm.
  revert Hi Hj Hk. unfold Rabs.
  destruct (Rcase_abs i), (Rcase_abs j), (Rcase_abs k); intros; nra.
Qed.

(** X4.  [worley] (lines 56-63) returns two distances in increasing
    order; the nearest feature point is closer than [sqrt 3] and the second
    nearest closer than [sqrt 6], so the initial [1e10] never survives the
    27 cells. *)
Theorem worley_ordered_bounded (p : vec3 R) :
  0 <= vx2 (worley p) <= vy2 (worley p) /\
  vx2 (worley p) < sqrt 3 /\ vy2 (worley p) < sqrt 6.
Proof.
  unfold worley. cbv zeta.
  set (ip := map3 gfloor p).
  rewrite (fold_left_map_arg keep_two_smallest (feature_dist_sq p ip)).
  assert (Hsplit : exists l1 l2,
             worley_offsets = l1 ++ Vec3 0 0 0 :: l2 /\ In (Vec3 1 0 0) l2).
  { exists (firstn 13 worley_offsets), (skipn 14 worley_offsets).
    split; [reflexivity |]. cbn. auto 20. }
  destruct Hsplit as (l1 & l2 & -> & Hin).
  rewrite map_app. cbn [List.map].
  pose proof (in_map (feature_dist_sq p ip) _ _ Hin) as Hin'.
  destruct (keep_two_smallest_pair
              (List.map (feature_dist_sq p ip) l1)
              (List.map (feature_dist_sq p ip) l2)
              (feature_dist_sq p ip (Vec3 0 0 0))
              (feature_dist_sq p ip (Vec3 1 0 0))
              10000000000 ltac:(lra) Hin')
    as (a & b & E & Hab & Ha & Hb).
  pose proof (keep_two_smallest_nonneg
    (List.map (feature_dist_sq p ip) l1
     ++ feature_dist_sq p ip (Vec3 0 0 0)
        :: List.map (feature_dist_sq p ip) l2)
    10000000000 10000000000 ltac:(lra) ltac:(lra)) as Hpos.
  rewrite E in *. cbn [vx2] in Hpos.
  assert (H0 : 0 <= a).
  { apply Hpos. intros x Hx.
    apply in_app_or in Hx. destruct Hx as [Hx | [<- | Hx]];
      try apply feature_dist_sq_nonneg;
      apply in_map_iff in Hx; destruct Hx as (dp & <- & _);
      apply feature_dist_sq_nonneg. }
  pose proof (feature_dist_sq_near p ip 0 0 0) as N0.
  pose proof (feature_dist_sq_near p ip 1 0 0) as N1.
  rewrite Rabs_R0 in N0, N1. rewrite Rabs_R1 in N1.
  specialize (N0 ltac:(lra) ltac:(lra) ltac:(lra)).
  specialize (N1 ltac:(lra) ltac:(lra) ltac:(lra)).
  assert (Hb6 : b < 6).
  { revert Hb. unfold Rmax. destruct (Rle_dec _ _); lra. }
  unfold map2. cbn [vx2 vy2].
  split; [split; [apply sqrt_pos | apply sqrt_le_1_alt; exact Hab] |].
  split; apply sqrt_lt_1_alt; lra.
Qed.

Lemma rotate2d_polar (angle r t : R) :
  mat2_mul (rotate2d angle) (Vec2 (r * cos t) (r * sin t))
  = Vec2 (r * cos (t - angle)) (r * sin (t - angle)).
Proof.
  unfold mat2_mul, rotate2d. cbn [col0 col1 vx2 vy2].
  rewrite cos_minus, sin_minus. f_equal; ring.
Qed.

Lemma rotate2d_length (angle : R) (v : vec2 R) :
  length2 (mat2_mul (rotate2d angle) v) = length2 v.
Proof.
  destruct v as [x y]. unfold length2, dot2, mat2_mul, rotate2d.
  cbn [col0 col1 vx2 vy2]. f_equal.
  pose proof (sin2_cos2 angle) as H. unfold Rsqr in H.
  replace ((cos angle * x + sin angle * y) * (cos angle * x + sin angle * y)
           + (- sin angle * x + cos angle * y) * (- sin angle * x + cos angle * y))
    with ((sin angle * sin angle + cos angle * cos angle) * (x * x + y * y))
    by ring.
  rewrite H. ring.
Qed.

(** X5.  [rotate2d(angle) * v] (lines 67-69) turns [v] clockwise by
    [angle], the matrix being given by columns: it takes the point at polar
    angle [t] to polar angle [t - angle], keeps lengths, and composes by
    adding the angles. *)
Theorem rotate2d_turns_clockwise (angle : R) :
  (forall r t, mat2_mul (rotate2d angle) (Vec2 (r * cos t) (r * sin t))
               = Vec2 (r * cos (t - angle)) (r * sin (t - angle))) /\
  (forall v, length2 (mat2_mul (rotate2d angle) v) = length2 v) /\
  (forall b v, mat2_mul (rotate2d angle) (mat2_mul (rotate2d b) v)
               = mat2_mul (rotate2d (angle + b)) v).
Proof.
  split; [intros; apply rotate2d_polar |].
  split; [intros; apply rotate2d_length |].
  intros b [x y]. unfold mat2_mul, rotate2d. cbn [col0 col1 vx2 vy2].
  rewrite cos_plus, sin_plus. f_equal; ring.
Qed.

Lemma length2_origin : length2 (Vec2 0 0) = 0.
Proof.
  unfold length2, dot2. cbn [vx2 vy2].
  replace (0 * 0 + 0 * 0) with 0 by ring. apply sqrt_0.
Qed.

(** X6.  [calculate_streaks] (lines 112-126) has a value for all
    arguments, in [0, 1]: [atan] is only taken of a current longer than
    [0.005], and the two edges of its [smoothstep] are [0.08] apart. *)
Theorem calculate_streaks_total (u : Uniforms R) (sampling_st currentVec : vec2 R)
    (time_in freq sharpThresh strength : R) :
  exists r,
    calculate_streaks u sampling_st currentVec time_in freq sharpThresh strength
    = Some r /\ 0 <= r <= 1.
Proof.
  unfold calculate_streaks.
  destruct (Rle_dec strength 0) as [_ | Hs]; [exists 0; split; [reflexivity | lra] |].
  cbv zeta.
  destruct (Rlt_dec 0.005 (length2 currentVec)) as [Hv | _].
  - destruct (glsl_atan_defined (vy2 currentVec) (vx2 currentVec)) as [a ->].
    { destruct currentVec as [x y]. cbn [vx2 vy2]. intros E.
      rewrite E, length2_origin in Hv. lra. }
    cbn [bind]. rewrite smoothstep_eq by lra. cbn [bind].
    eexists. split; [reflexivity |]. apply clamp_bounds. lra.
  - cbn [bind]. eexists. split; [reflexivity |]. apply clamp_bounds. lra.
Qed.

(** X7.  [calculate_streaks] returns [0.0] when the strength is not
    positive, as [main] sets it, and when the current is not longer than
    [0.005]. *)
Theorem calculate_streaks_off (u : Uniforms R) (sampling_st currentVec : vec2 R)
    (time_in freq sharpThresh strength : R) :
  strength <= 0 \/ length2 currentVec <= 0.005 ->
  calculate_streaks u sampling_st currentVec time_in freq sharpThresh strength
  = Some 0.
Proof.
  intros H. unfold calculate_streaks.
  destruct (Rle_dec strength 0) as [_ | Hs]; [reflexivity |].
  destruct H as [H | H]; [lra |]. cbv zeta.
  destruct (Rlt_dec 0.005 (length2 currentVec)) as [Hv | _]; [lra |].
  cbn [bind]. f_equal. rewrite clamp_R. case_minmax; lra.
Qed.

Lemma calculate_streaks_off_witness :
  calculate_streaks sample_U (Vec2 0.3 0.4) (Vec2 1 0) 0 40 0.8 0 = Some 0.
Proof. apply calculate_streaks_off. left. lra. Defined.

(** ** main: where it is defined *)
















(** X12.  [time] and [timeScale] enter [main] through their product
    only. *)
Theorem time_enters_as_product (u1 u2 : Uniforms R) (q : Quad R) :
  resolution u1 = resolution u2 -> patternScale u1 = patternScale u2 ->
  time u1 * timeScale u1 = time u2 * timeScale u2 ->
  main u1 q = main u2 q.
Proof.
  intros Hr Hp Ht.
  assert (Hm : masterTime u1 = masterTime u2).
  { unfold masterTime, masterTimeFactor. rnorm.
    assert (C : forall t c s, t * c * s = c * (t * s)) by (intros; ring).
    rewrite !C, Ht. reflexivity. }
  unfold_layers. rewrite Hr, Hp, Hm. reflexivity.
Qed.

Lemma time_enters_as_product_witness :
  main {| resolution := Vec2 800 600; time := 2; patternScale := 1;
          timeScale := 1 |} fine_R
  = main {| resolution := Vec2 800 600; time := 1; patternScale := 1;
            timeScale := 2 |} fine_R.
Proof.
  apply time_enters_as_product; cbn [resolution patternScale time timeScale];
    try reflexivity; ring.
Defined.

(** X13.  [distToEdge] (lines 217-218) lies in [0.0001, 0.5], also
    outside the unit square, and is unchanged by mirroring the point at the
    centre line and by exchanging its coordinates. *)
Theorem distToEdge_range_symmetric (x y : R) :
  0.0001 <= distToEdge (Vec2 x y) <= 0.5 /\
  distToEdge (Vec2 (1 - x) y) = distToEdge (Vec2 x y) /\
  distToEdge (Vec2 y x) = distToEdge (Vec2 x y).
Proof.
  unfold distToEdge. cbv zeta. cbn [vx2 vy2].
  rewrite !gmax_R, !gmin_R. rnorm.
  repeat split; case_minmax; lra.
Qed.

(** ** The shaping helpers *)

Lemma line_intensity_full (fw n t sh : R) :
  0 < fw * sh -> n <= t - fw * sh ->
  calculate_line_intensity fw n t sh = Some 1.
Proof.
  intros Hfw Hn. unfold calculate_line_intensity. rnorm.
  rewrite smoothstep_below by lra. cbn [bind]. f_equal.
  rewrite clamp_R. case_minmax; lra.
Qed.


(** X15.  With a positive [fw], [calculate_line_intensity] is [0] from
    [threshold + fw] on and [1] up to [threshold - fw]. *)
Theorem calculate_line_intensity_saturates (fw n t sh : R) :
  0 < fw * sh ->
  (t + fw * sh <= n -> calculate_line_intensity fw n t sh = Some 0) /\
  (n <= t - fw * sh -> calculate_line_intensity fw n t sh = Some 1).
Proof.
  intros Hfw. split; intros Hn.
  - now apply line_intensity_off.
  - now apply line_intensity_full.
Qed.

Lemma calculate_line_intensity_saturates_witness :
  calculate_line_intensity 0.1 0.7 0.5 1.5 = Some 0 /\
  calculate_line_intensity 0.1 0.3 0.5 1.5 = Some 1.
Proof.
  destruct (calculate_line_intensity_saturates 0.1 0.7 0.5 1.5 ltac:(lra))
    as [H0 _].
  destruct (calculate_line_intensity_saturates 0.1 0.3 0.5 1.5 ltac:(lra))
    as [_ H1].
  split; [apply H0 | apply H1]; lra.
Defined.

Lemma smoothstep_mono (e0 e1 x y s1 s2 : R) :
  e0 < e1 -> x <= y ->
  smoothstep e0 e1 x = Some s1 -> smoothstep e0 e1 y = Some s2 -> s1 <= s2.
Proof.
  intros He Hxy H1 H2.
  rewrite smoothstep_eq in H1, H2 by lra.
  injection H1 as <-. injection H2 as <-.
  assert (Hc : clamp ((x - e0) / (e1 - e0)) 0 1
               <= clamp ((y - e0) / (e1 - e0)) 0 1).
  { apply clamp_mono. apply Rmult_le_compat_r; [| lra].
    left. apply Rinv_0_lt_compat. lra. }
  pose proof (clamp_bounds ((x - e0) / (e1 - e0)) 0 1 ltac:(lra)).
  pose proof (clamp_bounds ((y - e0) / (e1 - e0)) 0 1 ltac:(lra)).
  apply hermite_mono; lra.
Qed.

(** X16.  With a positive [fw], [calculate_line_intensity] does not
    increase with the noise value. *)
Theorem calculate_line_intensity_antitone (fw n1 n2 t sh i1 i2 : R) :
  0 < fw * sh -> n1 <= n2 ->
  calculate_line_intensity fw n1 t sh = Some i1 ->
  calculate_line_intensity fw n2 t sh = Some i2 ->
  i2 <= i1.
Proof.
  intros Hfw Hn H1 H2. unfold calculate_line_intensity in H1, H2.
  bind_inv H1 as s1 E1. bind_inv H2 as s2 E2.
  injection H1 as <-. injection H2 as <-.
  revert E1 E2. rnorm. intros E1 E2.
  assert (He : t - fw * sh < t + fw * sh) by lra.
  pose proof (smoothstep_mono _ _ _ _ _ _ He Hn E1 E2).
  apply clamp_mono. lra.
Qed.

Lemma calculate_line_intensity_antitone_witness :
  calculate_line_intensity 0.1 0.3 0.5 1.5 = Some 1 /\
  calculate_line_intensity 0.1 0.7 0.5 1.5 = Some 0 /\ 0 <= 1.
Proof.
  assert (H1 : calculate_line_intensity 0.1 0.3 0.5 1.5 = Some 1)
    by (apply line_intensity_full; lra).
  assert (H2 : calculate_line_intensity 0.1 0.7 0.5 1.5 = Some 0)
    by (apply line_intensity_off; lra).
  split; [exact H1 |]. split; [exact H2 |].
  apply (calculate_line_intensity_antitone 0.1 0.3 0.7 0.5 1.5 1 0);
    [lra | lra | exact H1 | exact H2].
Defined.

(** X17.  With a positive [fw], [calculate_band_intensity] (lines
    102-107) is [0] outside the band widened by [fw] on both sides, and [1]
    on the band narrowed by [fw] on both sides. *)
Theorem calculate_band_intensity_support (fw n b0 b1 sh : R) :
  0 < fw * sh -> b0 <= b1 ->
  (n <= b0 - fw * sh \/ b1 + fw * sh <= n ->
   calculate_band_intensity fw n b0 b1 sh = Some 0) /\
  (b0 + fw * sh <= n <= b1 - fw * sh ->
   calculate_band_intensity fw n b0 b1 sh = Some 1).
Proof.
  intros Hfw Hb. split.
  - intros [Hn | Hn].
    + now apply band_intensity_off.
    + unfold calculate_band_intensity. rnorm.
      rewrite !smoothstep_above by lra. cbn [bind]. f_equal.
      rewrite clamp_R. case_minmax; lra.
  - intros [Hn0 Hn1]. unfold calculate_band_intensity. rnorm.
    rewrite smoothstep_above by lra. rewrite smoothstep_below by lra.
    cbn [bind]. f_equal. rewrite clamp_R. case_minmax; lra.
Qed.

Lemma calculate_band_intensity_support_witness :
  calculate_band_intensity 0.0005 0.5 0.58 0.59 5 = Some 0 /\
  calculate_band_intensity 0.0005 0.585 0.58 0.59 5 = Some 1.
Proof.
  destruct (calculate_band_intensity_support 0.0005 0.5 0.58 0.59 5
              ltac:(lra) ltac:(lra)) as [H0 _].
  destruct (calculate_band_intensity_support 0.0005 0.585 0.58 0.59 5
              ltac:(lra) ltac:(lra)) as [_ H1].
  split; [apply H0; left; lra | apply H1; lra].
Defined.

(** X18.  For a breakup strength in [0, 1], [lineVisibilityMask] (lines
    239-246) has a value everywhere, in [0, 1]. *)
Theorem lineVisibilityMask_range (u : Uniforms R) (s : R) (st : vec2 R) :
  0 <= s <= 1 ->
  exists v, lineVisibilityMask u s st = Some v /\ 0 <= v <= 1.
Proof.
  intros Hs. unfold lineVisibilityMask.
  destruct (breakupMask_defined u st) as (m & -> & Hm). cbn [bind].
  eexists. split; [reflexivity |]. rnorm. nra.
Qed.

Lemma lineVisibilityMask_range_witness :
  exists v, lineVisibilityMask sample_U 1 (Vec2 0.3 0.4) = Some v /\ 0 <= v <= 1.
Proof. apply lineVisibilityMask_range. lra. Defined.

(** ** The compositor *)

Lemma totalFoamIntensity_bounds (L : Layers) : 0 <= totalFoamIntensity L <= 1.
Proof. unfold totalFoamIntensity. apply clamp_bounds. lra. Qed.

(** X19.  Where the three foam layers add up to [1] or more, the output
    is [colorFoamLine], whatever the dark lines and the glow. *)
Theorem foam_covers_the_surface (L : Layers) :
  1 <= L_foamIntensity_masked L + L_lapLineIntensity_final L
       + L_radialWaveIntensity_final L ->
  gl_FragColor L = Vec4 0.95 0.98 1 1.
Proof.
  intros H.
  assert (T : totalFoamIntensity L = 1).
  { unfold totalFoamIntensity. rewrite clamp_R. case_minmax; lra. }
  unfold gl_FragColor, finalColor. cbv zeta. rewrite T.
  unfold mix3, mix, colorFoamLine, zip3, map3. cbn [vx3 vy3 vz3]. rnorm.
  replace (1 - 1) with 0 by lra. rewrite !Rmult_0_r.
  f_equal; rewrite ?clamp_R; case_minmax; lra.
Qed.

Lemma foam_covers_the_surface_witness :
  gl_FragColor {| L_darkLineIntensity := 0.5; L_foamIntensity_masked := 0.2;
                  L_staticGlowFactor := 0.3; L_lapLineIntensity_final := 0.7;
                  L_radialWaveIntensity_final := 0.3 |}
  = Vec4 0.95 0.98 1 1.
Proof.
  apply foam_covers_the_surface.
  cbn [L_foamIntensity_masked L_lapLineIntensity_final
       L_radialWaveIntensity_final]. lra.
Defined.

(** X20.  With no dark line, no glow and no foam the output is
    [colorBackground]. *)
Theorem still_water_is_background (L : Layers) :
  L_darkLineIntensity L <= 0 -> L_staticGlowFactor L = 0 ->
  L_foamIntensity_masked L + L_lapLineIntensity_final L
  + L_radialWaveIntensity_final L <= 0 ->
  gl_FragColor L = Vec4 0.15 0.45 0.80 1.
Proof.
  intros Hd Hg Hf.
  assert (T : totalFoamIntensity L = 0).
  { unfold totalFoamIntensity. rewrite clamp_R. case_minmax; lra. }
  assert (D : clamp (L_darkLineIntensity L) 0 1 = 0).
  { rewrite clamp_R. case_minmax; lra. }
  unfold gl_FragColor, finalColor. cbv zeta. rewrite T.
  unfold colorWithGlow, baseColor, glowBoost. rewrite D, Hg.
  unfold mix3, mix, colorFoamLine, colorBackground, colorDarkLine,
    colorStaticGlow, staticGlowAlpha, staticGlowDarkBoost, zip3, map3.
  cbn [vx3 vy3 vz3]. rnorm.
  f_equal; rewrite ?clamp_R; case_minmax; lra.
Qed.

Lemma still_water_is_background_witness :
  gl_FragColor {| L_darkLineIntensity := 0; L_foamIntensity_masked := 0;
                  L_staticGlowFactor := 0; L_lapLineIntensity_final := 0;
                  L_radialWaveIntensity_final := 0 |}
  = Vec4 0.15 0.45 0.80 1.
Proof.
  apply still_water_is_background;
    cbn [L_darkLineIntensity L_staticGlowFactor L_foamIntensity_masked
         L_lapLineIntensity_final L_radialWaveIntensity_final]; lra.
Defined.

(** X21.  No channel of the output decreases when the static glow factor
    increases, the other layers being equal. *)
Theorem glow_brightens (d f l r g1 g2 : R) :
  g1 <= g2 ->
  let L g := {| L_darkLineIntensity := d; L_foamIntensity_masked := f;
                L_staticGlowFactor := g; L_lapLineIntensity_final := l;
                L_radialWaveIntensity_final := r |} in
  vx4 (gl_FragColor (L g1)) <= vx4 (gl_FragColor (L g2)) /\
  vy4 (gl_FragColor (L g1)) <= vy4 (gl_FragColor (L g2)) /\
  vz4 (gl_FragColor (L g1)) <= vz4 (gl_FragColor (L g2)).
Proof.
  intros Hg L.
  pose proof (totalFoamIntensity_bounds (L g1)) as HT.
  assert (ET : totalFoamIntensity (L g2) = totalFoamIntensity (L g1))
    by reflexivity.
  pose proof (clamp_bounds d 0 1 ltac:(lra)) as HD.
  unfold gl_FragColor, finalColor. cbv zeta. rewrite ET.
  set (T := totalFoamIntensity (L g1)) in *.
  unfold colorWithGlow, baseColor, glowBoost, mix3, mix, colorFoamLine,
    colorBackground, colorDarkLine, colorStaticGlow, staticGlowAlpha,
    staticGlowDarkBoost, zip3, map3.
  cbn [vx3 vy3 vz3 vx4 vy4 vz4 L L_darkLineIntensity L_staticGlowFactor].
  rnorm.
  set (D := clamp d 0 1) in *.
  assert (K : 0 <= (1 * (1 - D) + 18 / 10 * D) * (1 - T)) by nra.
  repeat split; apply clamp_mono; nra.
Qed.

Lemma glow_brightens_witness :
  vx4 (gl_FragColor {| L_darkLineIntensity := 0.5; L_foamIntensity_masked := 0.1;
                       L_staticGlowFactor := 0.2; L_lapLineIntensity_final := 0;
                       L_radialWaveIntensity_final := 0.1 |})
  <= vx4 (gl_FragColor {| L_darkLineIntensity := 0.5; L_foamIntensity_masked := 0.1;
                          L_staticGlowFactor := 0.6; L_lapLineIntensity_final := 0;
                          L_radialWaveIntensity_final := 0.1 |}).
Proof.
  apply (glow_brightens 0.5 0.1 0 0.1 0.2 0.6). lra.
Defined.

(** ** The two UV sets *)

Lemma sample_well_defined : well_defined sample_U coarse_R.
Proof.
  destruct sample_aspects as (_ & _ & _ & Ach & Acx & Acy).
  destruct sample_facts as (_ & _ & [Hdfw _] & [Hffw _] & _ & _).
  exists (map2 Q2R st_here),
    (Q2R (dark_fw sample_uniforms st_here st_coarse_dx st_coarse_dy)),
    (Q2R (foam_fw sample_uniforms st_here st_coarse_dx st_coarse_dy)).
  split; [exact (embedded_aspect sample_uniforms coarse_quad st_here Ach) |].
  split; [exact (embedded_dark_fwidth sample_uniforms coarse_quad
                   st_here st_coarse_dx st_coarse_dy Ach Acx Acy) |].
  split; [apply Qlt_Rlt in Hdfw; rewrite Q2R_decimal in Hdfw; lra |].
  split; [exact (embedded_foam_fwidth sample_uniforms coarse_quad
                   st_here st_coarse_dx st_coarse_dy Ach Acx Acy) |].
  split; [apply Qlt_Rlt in Hffw; rewrite Q2R_decimal in Hffw; lra |].
  split.
  - unfold coarse_R, coarse_quad, sample_quad, map2.
    cbn [embed_quad embed_varyings here vUv vx2 vy2].
    intros E. injection E as E1 E2. rewrite Q2R_decimal in E1. lra.
  - unfold st_here, map2. cbn [vx2 vy2].
    intros E. injection E as E1 E2. rewrite Q2R_decimal in E1. lra.
Qed.

(** X22.  The dark lines, the foam band and the radial waves read [vUv2]
    only, the static glow and the lapping waves [vUv] only. *)
Theorem uv_sets_are_separate (s : R) (u : Uniforms R) (q1 q2 : Quad R)
    (L1 L2 : Layers) :
  layers s u q1 = Some L1 -> layers s u q2 = Some L2 ->
  (vUv2 (here q1) = vUv2 (here q2) ->
   vUv2 (beside q1) = vUv2 (beside q2) ->
   vUv2 (above q1) = vUv2 (above q2) ->
   L_darkLineIntensity L1 = L_darkLineIntensity L2 /\
   L_foamIntensity_masked L1 = L_foamIntensity_masked L2 /\
   L_radialWaveIntensity_final L1 = L_radialWaveIntensity_final L2) /\
  (vUv (here q1) = vUv (here q2) ->
   L_staticGlowFactor L1 = L_staticGlowFactor L2 /\
   L_lapLineIntensity_final L1 = L_lapLineIntensity_final L2).
Proof.
  intros H1 H2.
  apply layers_inv in H1 as (st1 & Hst1 & Hd1 & Hf1 & Hg1 & Hl1 & Hr1).
  apply layers_inv in H2 as (st2 & Hst2 & Hd2 & Hf2 & Hg2 & Hl2 & Hr2).
  split.
  - intros Eh Eb Ea.
    assert (Ed : darkLineIntensity u s q1 = darkLineIntensity u s q2).
    { unfold darkLineIntensity, fwidth. rewrite Eh, Eb, Ea. reflexivity. }
    assert (Ef : foamIntensity_masked u s q1 = foamIntensity_masked u s q2).
    { unfold foamIntensity_masked, foamIntensity_base, fwidth.
      rewrite Eh, Eb, Ea. reflexivity. }
    assert (Est : st1 = st2) by congruence. subst st2.
    repeat split; congruence.
  - intros Eh. rewrite Eh in Hg1, Hl1. split; congruence.
Qed.

Lemma uv_sets_are_separate_witness :
  exists L1 L2,
    layers 1 sample_U coarse_R = Some L1 /\
    layers 1 sample_U
      {| here := {| vUv := Vec2 0.2 0.5; vUv2 := vUv2 (here coarse_R) |};
         beside := beside coarse_R; above := above coarse_R |} = Some L2 /\
    L_darkLineIntensity L1 = L_darkLineIntensity L2 /\
    L_foamIntensity_masked L1 = L_foamIntensity_masked L2 /\
    L_radialWaveIntensity_final L1 = L_radialWaveIntensity_final L2.
Proof.
  pose proof sample_well_defined as W.
  destruct (layers_defined 1 sample_U coarse_R W) as [L1 H1].
  destruct (layers_defined 1 sample_U
              {| here := {| vUv := Vec2 0.2 0.5; vUv2 := vUv2 (here coarse_R) |};
                 beside := beside coarse_R; above := above coarse_R |})
    as [L2 H2].
  { destruct W as (st & fd & ff & Hst & Hfd & Hfd0 & Hff & Hff0 & _ & Hc).
    exists st, fd, ff. repeat split; try assumption.
    cbn [here vUv]. intros E. injection E as E1. lra. }
  exists L1, L2. split; [exact H1 |]. split; [exact H2 |].
  destruct (uv_sets_are_separate 1 sample_U _ _ L1 L2 H1 H2) as [Hp _].
  apply Hp; reflexivity.
Defined.

(** X23.  The radial wave layer (lines 301-329) lies between [0] and
    [radialWaveIntensity = 0.6]. *)
Theorem radial_wave_bounded (u : Uniforms R) (st : vec2 R) (r : R) :
  radialWaveIntensity_final u st = Some r -> 0 <= r <= radialWaveIntensity.
Proof. apply radialWaveIntensity_final_range. Qed.

Lemma radial_wave_bounded_witness :
  exists r, radialWaveIntensity_final sample_U (Vec2 0.3 0.4) = Some r /\
            0 <= r <= radialWaveIntensity.
Proof.
  destruct (radialWaveIntensity_final_defined sample_U (Vec2 0.3 0.4))
    as [r Hr].
  { intros E. injection E as E1 E2. lra. }
  exists r. split; [exact Hr |].
  exact (radial_wave_bounded sample_U (Vec2 0.3 0.4) r Hr).
Defined.

(** X24.  The lapping wave layer (lines 277-298) is [0] where the
    distorted distance to the edge is [edgeWaveFadeDistance = 0.08] or
    more. *)
Theorem lap_wave_fades_out (u : Uniforms R) (st_orig n : vec2 R) :
  normalize2 (map2 (fun c => c - 0.5) st_orig) = Some n ->
  0.08 <= distToEdge st_orig - dot2 (edgeDistortion u st_orig) n * 0.5 ->
  lapLineIntensity_final u st_orig = Some 0.
Proof.
  intros Hn Hd. unfold lapLineIntensity_final. cbv zeta.
  rewrite Hn. cbn [bind].
  match goal with
  | |- context [glsl_pow ?w lapWavePeakSharpness] =>
      destruct (glsl_pow_unit w lapWavePeakSharpness) as (p & -> & Hp);
        [apply wave_unit | unfold lapWavePeakSharpness; lra |]
  end.
  cbn [bind].
  set (dd := gmax _ _).
  assert (Hdd : 0.08 <= dd).
  { subst dd. rewrite gmax_R. unfold Rmax. destruct (Rle_dec _ _); lra. }
  unfold edgeWaveFadeDistance. rnorm.
  rewrite smoothstep_reversed_far by lra.
  cbn [bind]. f_equal. rewrite clamp_R. case_minmax; lra.
Qed.

Lemma lap_wave_fades_out_witness :
  lapLineIntensity_final sample_U (vUv (here fine_R)) = Some 0.
Proof.
  destruct sample_facts as (_ & _ & _ & _ & _ & [_ Hd]).
  apply (lap_wave_fades_out sample_U (vUv (here fine_R)) (Vec2 (-1) 0)).
  - change (vUv (here fine_R)) with (map2 Q2R (Vec2 (3 # 10) (1 # 2))%Q).
    assert (E : map2 Q2R (Vec2 (3 # 10) (1 # 2))%Q = Vec2 0.3 0.5).
    { unfold map2. cbn [vx2 vy2]. f_equal; rewrite Q2R_decimal; lra. }
    rewrite E. unfold map2. cbn [vx2 vy2].
    replace (0.5 - 0.5) with 0 by lra.
    apply normalize2_left. lra.
  - change (vUv (here fine_R)) with (map2 Q2R (Vec2 (3 # 10) (1 # 2))%Q).
    unfold sample_U. rewrite Q2R_edgeDistortion, Q2R_distToEdge.
    unfold dot2, map2 at 1. cbn [vx2 vy2].
    q2r_ineq Hd. lra.
Defined.

(** ** The lattice of the simplex noise *)

Lemma Zfloor_add_IZR (r : R) (n : Z) :
  IZR (Zfloor (r + IZR n)) = IZR (Zfloor r) + IZR n.
Proof. now rewrite Zfloor_addz, plus_IZR. Qed.

Lemma mod289_period (x : R) (k : Z) : mod289 (x + IZR (289 * k)) = mod289 x.
Proof.
  rewrite !mod289_R.
  replace ((x + IZR (289 * k)) / 289) with (x / 289 + IZR k)
    by (rewrite mult_IZR; field).
  rewrite Zfloor_add_IZR, mult_IZR. ring.
Qed.

Ltac zeta_head :=
  lazymatch goal with
  | |- (let x := ?a in @?b x) = (let y := ?a' in @?b' y) =>
      change (b a = b' a'); cbv beta
  end.

Ltac let_step f :=
  lazymatch goal with
  | |- (let x := ?a in @?b x) = (let y := ?a' in @?b' y) =>
      let x := fresh "x" in
      refine (@let_embed _ _ _ _ f (fun r : R => r) a a' b b' _ _);
      [ | intros x; cbv beta ]
  end.

(** X25.  [snoise] (lines 28-47) has the period [867 = 3 * 289] along
    each axis: the lattice indices are reduced by [mod289], and a shift by
    a multiple of 3 leaves the skewed cell coordinates in place. *)
Theorem snoise_period (v : vec3 R) (a b c : Z) :
  snoise (add3 v (Vec3 (IZR (867 * a)) (IZR (867 * b)) (IZR (867 * c))))
  = snoise v.
Proof.
  destruct v as [x y z]. symmetry.
  set (S := (a + b + c)%Z).
  set (T := Vec3 (IZR (867 * a + 289 * S)) (IZR (867 * b + 289 * S))
                 (IZR (867 * c + 289 * S))).
  cbv beta delta [snoise].
  do 6 zeta_head.
  let_step (fun i : vec3 R => add3 i T).
  { unfold T, S, add3, adds3, dot3, splat3, zip3, map3.
    cbn [vx3 vy3 vz3]. rnorm.
    rewrite <- !Zfloor_add_IZR.
    f_equal; do 2 f_equal;
      rewrite !plus_IZR, !mult_IZR, !plus_IZR; field. }
  let_step (fun x0 : vec3 R => x0).
  { destruct x0 as [i j k].
    unfold T, S, add3, sub3, adds3, dot3, splat3, zip3, map3.
    cbn [vx3 vy3 vz3]. rnorm.
    f_equal; rewrite !plus_IZR, !mult_IZR, !plus_IZR; field. }
  do 7 (let_step (fun w : vec3 R => w); [reflexivity |]).
  let_step (fun w : vec3 R => w).
  { destruct x0 as [i j k]. unfold T, add3, zip3, map3.
    cbn [vx3 vy3 vz3]. rnorm.
    f_equal; symmetry.
    - replace (867 * a + 289 * S)%Z with (289 * (3 * a + S))%Z by lia.
      apply mod289_period.
    - replace (867 * b + 289 * S)%Z with (289 * (3 * b + S))%Z by lia.
      apply mod289_period.
    - replace (867 * c + 289 * S)%Z with (289 * (3 * c + S))%Z by lia.
      apply mod289_period. }
  reflexivity.
Qed.

(** * The boat of [main.js] *)


Ltac split_decisions :=
  repeat match goal with
         | |- context [Rlt_dec ?x ?y] => destruct (Rlt_dec x y)
         | |- context [Rle_dec ?x ?y] => destruct (Rle_dec x y)
         | H : context [Rlt_dec ?x ?y] |- _ => destruct (Rlt_dec x y)
         | H : context [Rle_dec ?x ?y] |- _ => destruct (Rle_dec x y)
         end.

Lemma targetFrameDuration_value : targetFrameDuration = 1 / 30.
Proof. reflexivity. Qed.

(** X26.  [render] ([main.js], lines 516-522): with a non-negative clock
    delta and an accumulator below one frame duration, the fixed-timestep
    loop runs at most twice, leaves an accumulator below one frame duration
    again, and accounts for all of the clamped time. *)
Theorem fixed_steps_at_most_two (timeAccumulator clock_delta : R) :
  0 <= timeAccumulator < targetFrameDuration -> 0 <= clock_delta ->
  exists left_over updates,
    fixed_steps 2 (timeAccumulator + deltaTime clock_delta) 0
    = Some (left_over, updates) /\
    (updates <= 2)%nat /\
    0 <= left_over < targetFrameDuration /\
    left_over + INR updates * targetFrameDuration
    = timeAccumulator + deltaTime clock_delta.
Proof.
  rewrite targetFrameDuration_value. intros Ha Hd.
  assert (Hdt : 0 <= deltaTime clock_delta <= 0.05).
  { unfold deltaTime, Rmin. destruct (Rle_dec _ _); lra. }
  set (t := timeAccumulator + deltaTime clock_delta).
  assert (Ht : 0 <= t < 3 / 30) by (subst t; lra).
  cbn [fixed_steps]. rewrite targetFrameDuration_value.
  destruct (Rle_dec (1 / 30) t) as [H1 | H1].
  - destruct (Rle_dec (1 / 30) (t - 1 / 30)) as [H2 | H2].
    + destruct (Rle_dec (1 / 30) (t - 1 / 30 - 1 / 30)) as [H3 | H3]; [lra |].
      exists (t - 1 / 30 - 1 / 30), 2%nat.
      split; [reflexivity |]. split; [lia |]. split; [lra |].
      cbn [INR]. lra.
    + exists (t - 1 / 30), 1%nat.
      split; [reflexivity |]. split; [lia |]. split; [lra |].
      cbn [INR]. lra.
  - exists t, 0%nat.
    split; [reflexivity |]. split; [lia |]. split; [lra |].
    cbn [INR]. lra.
Qed.

Lemma fixed_steps_at_most_two_witness :
  exists left_over updates,
    fixed_steps 2 (0.02 + deltaTime 0.04) 0 = Some (left_over, updates) /\
    (updates <= 2)%nat /\
    0 <= left_over < targetFrameDuration /\
    left_over + INR updates * targetFrameDuration = 0.02 + deltaTime 0.04.
Proof.
  apply (fixed_steps_at_most_two 0.02 0.04).
  - rewrite targetFrameDuration_value. lra.
  - lra.
Defined.

Lemma speed_constants :
  maxSpeed = 15 /\ accelerationRate * targetFrameDuration = 1 / 3 /\
  decelerationRate * targetFrameDuration = 4 / 15 /\ collisionDamping = 0.2.
Proof.
  unfold maxSpeed, accelerationRate, decelerationRate, collisionDamping,
    targetFrameDuration, targetFrameRate, terrainScale.
  repeat split; lra.
Qed.

Lemma update_speed_range (a : bool) (v : R) : 0 <= update_speed a v <= maxSpeed.
Proof.
  destruct speed_constants as (Hm & _).
  unfold update_speed. cbv zeta. rewrite Hm.
  unfold Rmax, Rmin.
  split_decisions; lra.
Qed.

Lemma collide_range (blocked : bool) (v : R) :
  0 <= v <= maxSpeed -> 0 <= collide blocked v <= v.
Proof.
  destruct speed_constants as (_ & _ & _ & Hc).
  intros Hv. unfold collide. rewrite Hc.
  destruct (Rlt_dec 0.01 v); [destruct blocked |]; lra.
Qed.

Lemma boat_run_range (inputs : list (bool * bool)) (currentSpeed : R) :
  0 <= currentSpeed <= maxSpeed ->
  0 <= boat_run inputs currentSpeed <= maxSpeed.
Proof.
  unfold boat_run. revert currentSpeed.
  induction inputs as [| i inputs IH]; intros v Hv; cbn [fold_left].
  - exact Hv.
  - apply IH. unfold boat_step.
    pose proof (update_speed_range (fst i) v) as Hu.
    pose proof (collide_range (snd i) _ Hu). lra.
Qed.

(** X27.  [render] ([main.js], lines 535-551): whatever the keys and the
    collisions, the speed stays in [0, maxSpeed]. *)
Theorem boat_speed_in_range (inputs : list (bool * bool)) (currentSpeed : R) :
  0 <= currentSpeed <= maxSpeed ->
  0 <= boat_run inputs currentSpeed <= maxSpeed.
Proof. apply boat_run_range. Qed.

Lemma boat_speed_in_range_witness :
  0 <= boat_run [(true, false); (true, true); (false, false)] 0 <= maxSpeed.
Proof.
  apply boat_speed_in_range. destruct speed_constants as (-> & _). lra.
Defined.

Lemma coast_step (blocked : bool) (v : R) :
  0 <= v <= maxSpeed ->
  boat_step v (false, blocked) <= Rmax 0 (v - 4 / 15).
Proof.
  destruct speed_constants as (Hm & _ & Hd & _).
  intros Hv. unfold boat_step. cbn [fst snd].
  pose proof (update_speed_range false v) as Hu.
  pose proof (collide_range blocked _ Hu) as Hc.
  assert (Hs : update_speed false v <= Rmax 0 (v - 4 / 15)).
  { unfold update_speed. cbv beta iota zeta. rewrite Hm, Hd.
    unfold Rmax, Rmin.
    split_decisions; lra. }
  lra.
Qed.

Lemma coast_run (blocked : list bool) (v : R) :
  0 <= v <= maxSpeed ->
  boat_run (List.map (fun b => (false, b)) blocked) v
  <= Rmax 0 (v - INR (List.length blocked) * (4 / 15)).
Proof.
  unfold boat_run. revert v.
  induction blocked as [| b bs IH]; intros v Hv.
  - cbn. unfold Rmax. destruct (Rle_dec _ _); lra.
  - cbn [List.map fold_left List.length]. rewrite S_INR.
    pose proof (coast_step b v Hv) as Hs.
    assert (Hr : 0 <= boat_step v (false, b) <= maxSpeed).
    { unfold boat_step. cbn [fst snd].
      pose proof (update_speed_range false v) as Hu.
      pose proof (collide_range b _ Hu). lra. }
    specialize (IH _ Hr).
    pose proof (pos_INR (List.length bs)).
    revert IH Hs. unfold Rmax.
    split_decisions; intros; nra.
Qed.

(** X28.  [render] ([main.js], lines 535-551): without acceleration the
    boat is at rest after 57 updates, with or without collisions. *)
Theorem boat_coasts_to_rest (blocked : list bool) (currentSpeed : R) :
  0 <= currentSpeed <= maxSpeed -> (57 <= List.length blocked)%nat ->
  boat_run (List.map (fun b => (false, b)) blocked) currentSpeed = 0.
Proof.
  intros Hv Hn.
  pose proof (coast_run blocked currentSpeed Hv) as Hc.
  pose proof (boat_run_range
                (List.map (fun b => (false, b)) blocked) currentSpeed Hv) as Hr.
  destruct speed_constants as (Hm & _). rewrite Hm in *.
  apply le_INR in Hn. rewrite (INR_IZR_INZ 57) in Hn. cbn [Z.of_nat Pos.of_succ_nat Pos.succ] in Hn.
  revert Hc. unfold Rmax. destruct (Rle_dec _ _); intros; lra.
Qed.

Lemma boat_coasts_to_rest_witness :
  boat_run (List.map (fun b => (false, b)) (repeat false 57)) maxSpeed = 0.
Proof.
  apply boat_coasts_to_rest.
  - destruct speed_constants as (-> & _). lra.
  - rewrite repeat_length. lia.
Defined.

Lemma accelerate_step (v : R) :
  0 <= v <= maxSpeed ->
  boat_step v (true, false) = Rmin maxSpeed (v + 1 / 3).
Proof.
  destruct speed_constants as (Hm & Ha & _).
  intros Hv. unfold boat_step, collide, update_speed. cbn [fst snd].
  cbv beta iota zeta.
  rewrite Ha, Hm in *.
  unfold Rmax, Rmin.
  split_decisions; lra.
Qed.

Lemma accelerate_run (n : nat) (v : R) :
  0 <= v <= maxSpeed ->
  boat_run (repeat (true, false) n) v = Rmin maxSpeed (v + INR n * (1 / 3)).
Proof.
  destruct speed_constants as (Hm & _).
  unfold boat_run. revert v. induction n as [| n IH]; intros v Hv.
  - cbn. unfold Rmin. destruct (Rle_dec _ _); lra.
  - cbn [repeat fold_left]. rewrite S_INR.
    rewrite accelerate_step by assumption.
    rewrite IH.
    + pose proof (pos_INR n). rewrite Hm in *. unfold Rmin.
      split_decisions; lra.
    + rewrite Hm in *. unfold Rmin. destruct (Rle_dec _ _); lra.
Qed.

(** X29.  [render] ([main.js], lines 535-551): 45 updates of free
    acceleration bring the boat to [maxSpeed], from any speed. *)
Theorem boat_reaches_top_speed (n : nat) (currentSpeed : R) :
  0 <= currentSpeed <= maxSpeed -> (45 <= n)%nat ->
  boat_run (repeat (true, false) n) currentSpeed = maxSpeed.
Proof.
  intros Hv Hn. rewrite accelerate_run by assumption.
  destruct speed_constants as (Hm & _). rewrite Hm in *.
  apply le_INR in Hn. rewrite (INR_IZR_INZ 45) in Hn. cbn [Z.of_nat Pos.of_succ_nat Pos.succ] in Hn.
  unfold Rmin. destruct (Rle_dec _ _); lra.
Qed.

Lemma boat_reaches_top_speed_witness :
  boat_run (repeat (true, false) 45) 0 = maxSpeed.
Proof.
  apply boat_reaches_top_speed; [| lia].
  destruct speed_constants as (-> & _). lra.
Defined.

(** ** keys *)
Lemma on_key_exclusive (c : Controls) (e : KeyEvent) :
  isTurningLeft c && isTurningRight c = false ->
  isTurningLeft (on_key c e) && isTurningRight (on_key c e) = false.
Proof.
  intros H. unfold on_key, keydown, keyup.
  destruct (on_input e); [exact H |].
  destruct c as [ac l r].
  cbn [isTurningLeft isTurningRight isAccelerating] in *.
  destruct (is_down e);
    repeat match goal with
           | |- context [if key_is ?k ?a ?b then _ else _] =>
               destruct (key_is k a b)
           end;
    cbn [isTurningLeft isTurningRight];
    destruct l, r; try reflexivity; discriminate.
Qed.

(** X30.  The key listeners ([main.js], lines 606-607): after any events
    the boat is not turning left and right at once, so that the two
    rotations of an update never cancel. *)
Theorem never_turning_both_ways (events : list KeyEvent) :
  let c := fold_left on_key events released in
  isTurningLeft c && isTurningRight c = false /\
  (turn_sign c = 0%Z <-> isTurningLeft c = false /\ isTurningRight c = false).
Proof.
  cbv zeta.
  assert (H : isTurningLeft (fold_left on_key events released)
              && isTurningRight (fold_left on_key events released) = false).
  { assert (G : forall c, isTurningLeft c && isTurningRight c = false ->
                  isTurningLeft (fold_left on_key events c)
                  && isTurningRight (fold_left on_key events c) = false).
    { induction events as [| e es IH]; intros c Hc; cbn [fold_left].
      - exact Hc.
      - apply IH. now apply on_key_exclusive. }
    apply G. reflexivity. }
  split; [exact H |].
  unfold turn_sign. revert H.
  destruct (isTurningLeft _), (isTurningRight _); cbn; intros H;
    split; intros; try discriminate; try lia; try tauto.
Qed.
